(** * simple-realtime-console-webrtc: signal normalizer and realtime session

    A shallow embedding of the two parts of the console that carry behaviour:

    - the signal normalizer of [useWebRTCWaveRenderer] ([normalizeArray] and
      [normalizeFrequencyData]), written once over an interface of JavaScript
      numbers and run at two instances: IEEE-754 binary64 (what the browser
      computes with) and exact rationals;
    - the session hook [useRealtimeWebRTC] ([connect], [disconnect],
      [sendEvent], the data-channel message listener, the mute flag), as
      state passing over the hook's refs and state cells and the browser
      objects they point to. *)

From Stdlib Require Import ZArith QArith Qround Qabs Qpower Floats Lia Lqa.
From Stdlib Require Import String Ascii List DecimalString.
From stdpp Require Import base list gmap strings.

Local Open Scope Z_scope.

(** ** JavaScript numbers *)

(** The operations of [number] that the normalizer uses. [num_index] is the
    reading of a number as an array index (a property key that is a
    non-negative integer); [num_f32] is the rounding a store into a
    [Float32Array] performs. *)
Class JsNumber (F : Type) : Type := {
  num_of_Z : Z -> F;
  num_NaN : F;
  num_add : F -> F -> F;
  num_sub : F -> F -> F;
  num_mul : F -> F -> F;
  num_div : F -> F -> F;
  num_leb : F -> F -> bool;
  Math_abs : F -> F;
  Math_floor : F -> F;
  Math_ceil : F -> F;
  Math_max : F -> F -> F;
  Math_min : F -> F -> F;
  Math_pow2 : F -> F;
  num_index : F -> option nat;
  num_f32 : F -> F
}.

(** *** Exact instance: rationals, with one value for every non-finite result *)

Inductive ExactNum : Type :=
  | Fin (q : Q)
  | NonFinite.

Definition exact_lift2 (f : Q -> Q -> Q) (a b : ExactNum) : ExactNum :=
  match a, b with
  | Fin x, Fin y => Fin (f x y)
  | _, _ => NonFinite
  end.

Definition exact_lift1 (f : Q -> Q) (a : ExactNum) : ExactNum :=
  match a with
  | Fin x => Fin (f x)
  | NonFinite => NonFinite
  end.

Definition exact_div (a b : ExactNum) : ExactNum :=
  match a, b with
  | Fin x, Fin y => if Qeq_bool y 0 then NonFinite else Fin (x / y)
  | _, _ => NonFinite
  end.

Definition exact_leb (a b : ExactNum) : bool :=
  match a, b with
  | Fin x, Fin y => Qle_bool x y
  | _, _ => false
  end.

Definition Qmax (x y : Q) : Q := if Qle_bool x y then y else x.
Definition Qmin (x y : Q) : Q := if Qle_bool x y then x else y.

Definition exact_index (a : ExactNum) : option nat :=
  match a with
  | Fin x =>
      let r := Qred x in
      if ((Qden r =? 1)%positive && (0 <=? Qnum r))%bool
      then Some (Z.to_nat (Qnum r)) else None
  | NonFinite => None
  end.

#[export] Instance exact_number : JsNumber ExactNum := {|
  num_of_Z z := Fin (inject_Z z);
  num_NaN := NonFinite;
  num_add := exact_lift2 Qplus;
  num_sub := exact_lift2 Qminus;
  num_mul := exact_lift2 Qmult;
  num_div := exact_div;
  num_leb := exact_leb;
  Math_abs := exact_lift1 Qabs;
  Math_floor := exact_lift1 (fun x => inject_Z (Qfloor x));
  Math_ceil := exact_lift1 (fun x => inject_Z (Qceiling x));
  Math_max := exact_lift2 Qmax;
  Math_min := exact_lift2 Qmin;
  Math_pow2 := exact_lift1 (fun x => x * x)%Q;
  num_index := exact_index;
  num_f32 x := x
|}.

(** *** Binary64 instance: the primitive floats of the kernel *)

Module Binary64.

Definition of_spec (x : spec_float) : float := SF2Prim x.

(** Every integer, rounded to nearest even like a numeric literal. *)
Definition of_Z (z : Z) : float :=
  of_spec (binary_normalize prec emax z 0 false).

Definition is_neg_zero (x : float) : bool :=
  match Prim2SF x with
  | S754_zero true => true
  | _ => false
  end.

(** [Math.max]/[Math.min]: NaN is contagious and [-0 < +0]. *)
Definition max (a b : float) : float :=
  if (PrimFloat.is_nan a || PrimFloat.is_nan b)%bool then PrimFloat.nan
  else if PrimFloat.ltb a b then b
  else if PrimFloat.ltb b a then a
  else if is_neg_zero a then b else a.

Definition min (a b : float) : float :=
  if (PrimFloat.is_nan a || PrimFloat.is_nan b)%bool then PrimFloat.nan
  else if PrimFloat.ltb a b then a
  else if PrimFloat.ltb b a then b
  else if is_neg_zero a then a else b.

(** The integer below (above) a finite float with a fractional part. *)
Definition floor_frac (s : bool) (m : positive) (e : Z) : Z :=
  let d := 2 ^ (- e) in
  if s then - ((Zpos m + d - 1) / d) else Zpos m / d.

Definition ceil_frac (s : bool) (m : positive) (e : Z) : Z :=
  let d := 2 ^ (- e) in
  if s then - (Zpos m / d) else (Zpos m + d - 1) / d.

Definition signed_of_Z (s : bool) (z : Z) : float :=
  if (z =? 0) then (if s then PrimFloat.neg_zero else PrimFloat.zero)
  else of_Z z.

Definition floor (x : float) : float :=
  match Prim2SF x with
  | S754_finite s m e =>
      if (0 <=? e) then x else signed_of_Z s (floor_frac s m e)
  | _ => x
  end.

Definition ceil (x : float) : float :=
  match Prim2SF x with
  | S754_finite s m e =>
      if (0 <=? e) then x else signed_of_Z s (ceil_frac s m e)
  | _ => x
  end.

(** An array index is an integer in [0, 2^32 - 2]. *)
Definition index (x : float) : option nat :=
  match Prim2SF x with
  | S754_zero _ => Some 0%nat
  | S754_finite false m e =>
      if (0 <=? e) then
        (if (e <? 32) && (Zpos m * 2 ^ e <? 2 ^ 32 - 1)
         then Some (Z.to_nat (Zpos m * 2 ^ e)) else None)%bool
      else
        (if (Zpos m mod 2 ^ (- e) =? 0) && (Zpos m / 2 ^ (- e) <? 2 ^ 32 - 1)
         then Some (Z.to_nat (Zpos m / 2 ^ (- e))) else None)%bool
  | _ => None
  end.

(** Rounding to binary32 (precision 24, emax 128), kept as a binary64. *)
Definition fround (x : float) : float :=
  match Prim2SF x with
  | S754_finite s m e => of_spec (binary_round 24 128 s m e)
  | _ => x
  end.

End Binary64.

#[export] Instance binary64_number : JsNumber float := {|
  num_of_Z := Binary64.of_Z;
  num_NaN := PrimFloat.nan;
  num_add := PrimFloat.add;
  num_sub := PrimFloat.sub;
  num_mul := PrimFloat.mul;
  num_div := PrimFloat.div;
  num_leb := PrimFloat.leb;
  Math_abs := PrimFloat.abs;
  Math_floor := Binary64.floor;
  Math_ceil := Binary64.ceil;
  Math_max := Binary64.max;
  Math_min := Binary64.min;
  Math_pow2 x := PrimFloat.mul x x;
  num_index := Binary64.index;
  num_f32 := Binary64.fround
|}.

(** ** Arrays *)

(** An element of a JavaScript array is a number or [undefined] (a hole, or
    a read out of range). *)
Inductive JsVal (F : Type) : Type :=
  | Undefined
  | Num (x : F).
Arguments Undefined {F}.
Arguments Num {F} x.

Section Arrays.
Context {F : Type} `{JsNumber F}.

(** [ToNumber]: arithmetic on [undefined] is arithmetic on NaN. *)
Definition ToNumber (v : JsVal F) : F :=
  match v with
  | Undefined => num_NaN
  | Num x => x
  end.

Definition num_of_nat (k : nat) : F := num_of_Z (Z.of_nat k).

(** [a[key]] on an [Array]. A key that is not an array index names an
    ordinary property; none is ever set here, so it reads [undefined]. *)
Definition array_get (a : list (JsVal F)) (key : F) : JsVal F :=
  match num_index key with
  | Some k => default Undefined (a !! k)
  | None => Undefined
  end.

(** [a[key] = v] on an [Array]: a write past the end extends the array,
    leaving holes; a key that is not an array index sets an ordinary
    property and leaves the elements alone. *)
Definition array_set (a : list (JsVal F)) (key : F) (v : JsVal F)
  : list (JsVal F) :=
  match num_index key with
  | Some k =>
      if decide (k < length a)%nat then <[k := v]> a
      else a ++ replicate (k - length a) Undefined ++ [v]
  | None => a
  end.

(** [data[key]] on a [Float32Array]. *)
Definition typed_get (data : list F) (key : F) : JsVal F :=
  match num_index key with
  | Some k => match data !! k with Some x => Num x | None => Undefined end
  | None => Undefined
  end.

(** [data[i]] for a loop counter [i]. *)
Definition typed_at (data : list F) (i : nat) : JsVal F :=
  match data !! i with Some x => Num x | None => Undefined end.

End Arrays.

(** ** Signal normalizer (useWebRTCWaveRenderer) *)

Section Normalizer.
Context {F : Type} `{JsNumber F}.

Definition num_zero : F := num_of_Z 0.
Definition num_one : F := num_of_Z 1.

(** [Math.floor(i * (m / n))] *)
Definition bucketIndex (i m n : nat) : F :=
  Math_floor (num_mul (num_of_nat i) (num_div (num_of_nat m) (num_of_nat n))).

(** One turn of the first downsampling loop, on [(result, count)]. *)
Definition downsample_step (downsamplePeaks : bool) (data : list F)
    (m n : nat) (st : list (JsVal F) * list (JsVal F)) (i : nat)
  : list (JsVal F) * list (JsVal F) :=
  let '(result, count) := st in
  let index := bucketIndex i m n in
  let sample := Math_abs (ToNumber (typed_at data i)) in
  let result' :=
    if downsamplePeaks
    then array_set result index
           (Num (Math_max (ToNumber (array_get result index)) sample))
    else array_set result index
           (Num (num_add (ToNumber (array_get result index)) sample)) in
  let count' :=
    array_set count index
      (Num (num_add (ToNumber (array_get count index)) num_one)) in
  (result', count').

(** The second loop: [result[i] = result[i] / count[i]] for every
    [i < result.length]. *)
Definition divide_by_count (result count : list (JsVal F))
  : list (JsVal F) :=
  fold_left
    (fun r i =>
       <[i := Num (num_div (ToNumber (default Undefined (r !! i)))
                           (ToNumber (default Undefined (count !! i))))]> r)
    (seq 0 (length result)) result.

Definition downsample (downsamplePeaks : bool) (data : list F) (m : nat)
  : list (JsVal F) :=
  let n := length data in
  let '(result, count) :=
    fold_left (downsample_step downsamplePeaks data m n) (seq 0 n)
      (replicate m (Num num_zero), replicate m (Num num_zero)) in
  if downsamplePeaks then result else divide_by_count result count.

(** The body of the interpolation loop for output position [i]. *)
Definition interpolate_at (data : list F) (m n i : nat) : JsVal F :=
  let index :=
    num_div (num_mul (num_of_nat i) (num_sub (num_of_nat n) num_one))
            (num_sub (num_of_nat m) num_one) in
  let low := Math_floor index in
  let high := Math_ceil index in
  let t := num_sub index low in
  if num_leb (num_of_nat n) high
  then typed_get data (num_sub (num_of_nat n) num_one)
  else Num (num_add
              (num_mul (ToNumber (typed_get data low)) (num_sub num_one t))
              (num_mul (ToNumber (typed_get data high)) t)).

Definition upsample (data : list F) (m : nat) : list (JsVal F) :=
  let n := length data in
  fold_left (fun result i => <[i := interpolate_at data m n i]> result)
    (seq 0 m) (replicate m Undefined).

(** [normalizeArray] without its cache. *)
Definition normalizeArray_compute (data : list F) (m : nat)
    (downsamplePeaks : bool) : list (JsVal F) :=
  if (m <=? length data)%nat then downsample downsamplePeaks data m
  else upsample data m.

(** The module-level [dataMap]: a [WeakMap] from the identity of a buffer
    to an object keyed by [m.toString()], holding objects keyed by
    [downsamplePeaks.toString()]. *)
Definition DataMap : Type := gmap nat (gmap nat (gmap bool (list (JsVal F)))).

(** [normalizeArray(data, m, downsamplePeaks, memoize)]; [dataId] is the
    identity of the buffer [data]. *)
Definition normalizeArray (dataMap : DataMap) (dataId : nat) (data : list F)
    (m : nat) (downsamplePeaks memoize : bool)
  : list (JsVal F) * DataMap :=
  if memoize then
    let cache := default ∅ (dataMap !! dataId) in
    let cache := <[m := default ∅ (cache !! m)]> cache in
    let dataMap := <[dataId := cache]> dataMap in
    match default ∅ (cache !! m) !! downsamplePeaks with
    | Some hit => (hit, dataMap)
    | None =>
        let result := normalizeArray_compute data m downsamplePeaks in
        let entry := <[downsamplePeaks := result]> (default ∅ (cache !! m)) in
        (result, <[dataId := <[m := entry]> cache]> dataMap)
    end
  else (normalizeArray_compute data m downsamplePeaks, dataMap).

Definition minDb : F := num_of_Z (-100).
Definition maxDb : F := num_of_Z (-30).

(** The body of the loop of [normalizeFrequencyData], before the store. *)
Definition normalizeSample (x : F) : F :=
  let db := Math_max minDb (Math_min maxDb x) in
  Math_pow2 (num_div (num_sub db minDb) (num_sub maxDb minDb)).

Definition normalizeFrequencyData (data : list F) : list F :=
  fold_left
    (fun normalized i =>
       match data !! i with
       | Some x => <[i := num_f32 (normalizeSample x)]> normalized
       | None => normalized
       end)
    (seq 0 (length data)) (replicate (length data) (num_f32 num_zero)).

End Normalizer.

(** ** The bars (WavRenderer.drawBars) *)

(** What [drawBars] reads of the canvas. *)
Record Canvas (F : Type) : Type := {
  canvas_width : F;
  canvas_height : F
}.
Arguments canvas_width {F} _.
Arguments canvas_height {F} _.

(** One bar as drawn: [fillRect(x, y, barWidth, height)] filled with a
    gradient along the line from [(x, y)] to [(x, y + height)], from
    [color] at its start to [color + '80'] at its end. *)
Record Bar (F : Type) : Type := {
  bar_x : F;
  bar_y : F;
  bar_width : F;
  bar_height : F;
  gradient_end : F;
  gradient_start_color : string;
  gradient_end_color : string
}.
Arguments bar_x {F} _.
Arguments bar_y {F} _.
Arguments bar_width {F} _.
Arguments bar_height {F} _.
Arguments gradient_end {F} _.
Arguments gradient_start_color {F} _.
Arguments gradient_end_color {F} _.

(** How a call of [drawBars] ends: it returns the heights, or one of the
    calls it makes throws. *)
Inductive Drawing (F : Type) : Type :=
  | returned (currentHeights : list F)
  | threw_RangeError
  | threw_TypeError
  | threw_SyntaxError.
Arguments returned {F} currentHeights.
Arguments threw_RangeError {F}.
Arguments threw_TypeError {F}.
Arguments threw_SyntaxError {F}.

Section Bars.
Context {F : Type} `{JsNumber F}.

(** Whether the browser reads a string as a CSS color. *)
Variable css_color : string -> bool.

(** A number that is NaN: the only one not at or below itself. *)
Definition num_is_nan (x : F) : bool := negb (num_leb x x).

(** A number that is neither NaN nor infinite: [x - x] is 0. *)
Definition num_is_finite (x : F) : bool :=
  num_leb (num_sub x x) (num_sub x x).

(** [!x] for a number: true of 0, -0 and NaN. *)
Definition num_not (x : F) : bool :=
  (num_is_nan x || (num_leb x num_zero && num_leb num_zero x))%bool.

(** The literals [0.02] and [0.3]: the decimal rounded to the nearest
    number, which is what the division of the two whole numbers gives. *)
Definition minimum_height : F := num_div (num_of_Z 2) (num_of_Z 100).
Definition easing : F := num_div (num_of_Z 3) (num_of_Z 10).

(** [new Float32Array(length)] for a length that is a whole number, NaN or
    infinite: NaN counts as 0; a negative or infinite length is a
    RangeError ([None]), and so is a length of 2^32 - 1 or more, for which
    no buffer can be allocated. *)
Definition typed_array_length (length : F) : option nat :=
  if num_is_nan length then Some 0%nat else num_index length.

(** [for (let j = startIdx; j < endIdx; j++) sum += normalizedData[j]],
    from [sum = 0]. Both bounds are whole numbers or NaN here; with a bound
    that is not an array index the test fails at once. *)
Definition sum_range (normalizedData : list F) (startIdx endIdx : F) : F :=
  match num_index startIdx, num_index endIdx with
  | Some a, Some b =>
      fold_left
        (fun sum j => num_add sum (ToNumber (typed_at normalizedData j)))
        (seq a (b - a)) num_zero
  | _, _ => num_zero
  end.

(** The height bar [i] is heading for: the average of its samples, at
    least [0.02]. *)
Definition targetHeight (normalizedData : list F) (samplesPerBar : F)
    (i : nat) : F :=
  let startIdx := num_mul (num_of_nat i) samplesPerBar in
  let endIdx :=
    Math_min (num_add startIdx samplesPerBar)
      (num_of_nat (length normalizedData)) in
  let sum := sum_range normalizedData startIdx endIdx in
  let average := num_div sum (num_sub endIdx startIdx) in
  Math_max minimum_height average.

(** The height stored in [currentHeights[i]], a [Float32Array]: from the
    previous height, or from the target itself on the first frame, 0.3 of
    the way to the target. *)
Definition easedHeight (target : F) (prevHeights : option (list F)) (i : nat)
  : F :=
  let prevHeight :=
    match prevHeights with
    | Some heights => ToNumber (typed_at heights i)
    | None => target
    end in
  num_f32 (num_add prevHeight (num_mul (num_sub target prevHeight) easing)).

(** The rest of one turn of the loop over the bars, from the height just
    stored: the bar it draws, unless [createLinearGradient] refuses a
    coordinate that is not finite (TypeError) or [addColorStop] a color it
    cannot read (SyntaxError). *)
Definition drawBar (canvas : Canvas F) (color : string)
    (barWidth barSpacing : F) (center : bool) (stored : F) (i : nat)
  : Bar F + Drawing F :=
  let height := num_mul stored (canvas_height canvas) in
  let x :=
    num_add barSpacing (num_mul (num_of_nat i) (num_add barWidth barSpacing)) in
  let y :=
    if center
    then num_div (num_sub (canvas_height canvas) height) (num_of_Z 2)
    else num_sub (canvas_height canvas) height in
  if negb (num_is_finite x && num_is_finite y
           && num_is_finite (num_add y height))
  then inr threw_TypeError
  else if negb (css_color color && css_color (String.append color "80"))
  then inr threw_SyntaxError
  else
    inl {| bar_x := x; bar_y := y; bar_width := barWidth;
           bar_height := height; gradient_end := num_add y height;
           gradient_start_color := color;
           gradient_end_color := String.append color "80" |}.

(** The loop over the bars: how it ends, and the bars drawn on the way. *)
Fixpoint drawLoop (canvas : Canvas F) (normalizedData : list F)
    (color : string) (samplesPerBar barWidth barSpacing : F) (center : bool)
    (prevHeights : option (list F)) (turns : list nat)
    (currentHeights : list F) (drawn : list (Bar F))
  : Drawing F * list (Bar F) :=
  match turns with
  | [] => (returned currentHeights, drawn)
  | i :: turns =>
      let stored :=
        easedHeight (targetHeight normalizedData samplesPerBar i)
          prevHeights i in
      match drawBar canvas color barWidth barSpacing center stored i with
      | inl bar =>
          drawLoop canvas normalizedData color samplesPerBar barWidth
            barSpacing center prevHeights turns
            (<[i := stored]> currentHeights) (drawn ++ [bar])
      | inr thrown => (thrown, drawn)
      end
  end.

(** [(canvas.width - barSpacing) / (Math.max(barWidth, 1) + barSpacing)] *)
Definition bars_that_fit (canvas : Canvas F) (barWidth barSpacing : F) : F :=
  num_div (num_sub (canvas_width canvas) barSpacing)
    (num_add (Math_max barWidth num_one) barSpacing).

(** [pointCount] after the first two statements. *)
Definition effective_pointCount (canvas : Canvas F)
    (pointCount barWidth barSpacing : F) : F :=
  let pointCount :=
    Math_floor (Math_min pointCount (bars_that_fit canvas barWidth barSpacing)) in
  if num_not pointCount
  then Math_floor (bars_that_fit canvas barWidth barSpacing)
  else pointCount.

(** [barWidth] after the third. *)
Definition effective_barWidth (canvas : Canvas F)
    (pointCount barWidth barSpacing : F) : F :=
  if num_not barWidth
  then num_sub (num_div (num_sub (canvas_width canvas) barSpacing) pointCount)
         barSpacing
  else barWidth.

(** [WavRenderer.drawBars(canvas, ctx, data, color, pointCount, barWidth,
    barSpacing, center, prevHeights)]: how the call ends, and the bars it
    has drawn on [ctx], in order. *)
Definition drawBars (canvas : Canvas F) (data : list F) (color : string)
    (pointCount barWidth barSpacing : F) (center : bool)
    (prevHeights : option (list F)) : Drawing F * list (Bar F) :=
  let pointCount := effective_pointCount canvas pointCount barWidth barSpacing in
  let barWidth := effective_barWidth canvas pointCount barWidth barSpacing in
  let normalizedData := normalizeFrequencyData data in
  match typed_array_length pointCount with
  | None => (threw_RangeError, [])
  | Some bars =>
      let samplesPerBar :=
        Math_floor
          (num_div (num_of_nat (length normalizedData)) pointCount) in
      drawLoop canvas normalizedData color samplesPerBar barWidth barSpacing
        center prevHeights (seq 0 bars) (replicate bars (num_f32 num_zero)) []
  end.

End Bars.

(** ** The render loop's use of drawBars *)

Section Frames.
Context {F : Type} `{JsNumber F}.
Variable css_color : string -> bool.


End Frames.

(** * The realtime session (useRealtimeWebRTC and its page) *)

(** ** Values carried by protocol events *)

(** A JavaScript value as far as the protocol is concerned; a number keeps
    the text it was written with. *)
#[local] Unset Elimination Schemes.
Inductive Value : Type :=
  | VUndefined
  | VNull
  | VBool (b : bool)
  | VNumber (lexeme : string)
  | VString (s : string)
  | VArray (items : list Value)
  | VObject (fields : list (string * Value)).
#[local] Set Elimination Schemes.

(** [obj[key] = v] on the field list of an object: replace in place, or
    append. *)
Fixpoint obj_set (fields : list (string * Value)) (key : string) (v : Value)
  : list (string * Value) :=
  match fields with
  | [] => [(key, v)]
  | (k, x) :: rest =>
      if String.eqb k key then (k, v) :: rest
      else (k, x) :: obj_set rest key v
  end.

(** [obj.key] *)
Fixpoint obj_get (fields : list (string * Value)) (key : string) : Value :=
  match fields with
  | [] => VUndefined
  | (k, x) :: rest => if String.eqb k key then x else obj_get rest key
  end.

Definition get_field (v : Value) (key : string) : Value :=
  match v with
  | VObject fields => obj_get fields key
  | _ => VUndefined
  end.

(** ** JSON text *)

Module JSON.
Local Open Scope char_scope.
Local Open Scope list_scope.

Definition is_ws (c : ascii) : bool :=
  match c with
  | " " | "009" | "010" | "013" => true
  | _ => false
  end.

Fixpoint skip_ws (s : list ascii) : list ascii :=
  match s with
  | c :: rest => if is_ws c then skip_ws rest else s
  | [] => []
  end.

Definition is_digit (c : ascii) : bool :=
  let n := nat_of_ascii c in ((48 <=? n) && (n <=? 57))%nat.

Definition hex_value (c : ascii) : option N :=
  let n := N_of_ascii c in
  if ((48 <=? n) && (n <=? 57))%N then Some (n - 48)%N
  else if ((97 <=? n) && (n <=? 102))%N then Some (n - 87)%N
  else if ((65 <=? n) && (n <=? 70))%N then Some (n - 55)%N
  else None.

(** The bytes (UTF-8) of the code unit a [\uXXXX] escape denotes. *)
Definition code_unit_bytes (u : N) : list ascii :=
  if (u <? 128)%N then [ascii_of_N u]
  else if (u <? 2048)%N then
    [ascii_of_N (192 + u / 64); ascii_of_N (128 + u mod 64)]
  else
    [ascii_of_N (224 + u / 4096); ascii_of_N (128 + (u / 64) mod 64);
     ascii_of_N (128 + u mod 64)].

(** The characters of a string literal after its opening quote. *)
Fixpoint parse_chars (s : list ascii) (acc : list ascii)
  : option (list ascii * list ascii) :=
  match s with
  | [] => None
  | "034" :: rest => Some (rev acc, rest)
  | "\" :: e :: rest =>
      match e with
      | "034" | "\" | "/" => parse_chars rest (e :: acc)
      | "b" => parse_chars rest ("008" :: acc)
      | "f" => parse_chars rest ("012" :: acc)
      | "n" => parse_chars rest ("010" :: acc)
      | "r" => parse_chars rest ("013" :: acc)
      | "t" => parse_chars rest ("009" :: acc)
      | "u" =>
          match rest with
          | a :: b :: c :: d :: rest' =>
              match hex_value a, hex_value b, hex_value c, hex_value d with
              | Some x3, Some x2, Some x1, Some x0 =>
                  parse_chars rest'
                    (rev (code_unit_bytes (x3 * 4096 + x2 * 256 + x1 * 16 + x0)%N)
                     ++ acc)
              | _, _, _, _ => None
              end
          | _ => None
          end
      | _ => None
      end
  | c :: rest =>
      if (nat_of_ascii c <? 32)%nat then None else parse_chars rest (c :: acc)
  end.

Fixpoint take_digits (s : list ascii) (acc : list ascii)
  : list ascii * list ascii :=
  match s with
  | c :: rest => if is_digit c then take_digits rest (c :: acc) else (acc, s)
  | [] => (acc, [])
  end.

(** A number: an optional minus, then 0 or a non-zero digit and more
    digits, then an optional fraction (a dot and digits) and an optional
    exponent (e or E, an optional sign, digits). [acc] is the text read so
    far, reversed. *)
Definition parse_number (s : list ascii) : option (list ascii * list ascii) :=
  let '(acc, s) := match s with "-" :: r => (["-"], r) | _ => ([], s) end in
  match s with
  | c :: r =>
      if is_digit c then
        let '(acc, s) :=
          if Ascii.eqb c "0" then (c :: acc, r) else take_digits r (c :: acc) in
        let after_fraction :=
          match s with
          | "." :: d :: r' =>
              if is_digit d then Some (take_digits r' (d :: "." :: acc))
              else None
          | "." :: [] => None
          | _ => Some (acc, s)
          end in
        match after_fraction with
        | Some (acc, s) =>
            match s with
            | e :: r' =>
                if (Ascii.eqb e "e" || Ascii.eqb e "E")%bool then
                  let '(acc, r') :=
                    match r' with
                    | "+" :: r'' => ("+" :: e :: acc, r'')
                    | "-" :: r'' => ("-" :: e :: acc, r'')
                    | _ => (e :: acc, r')
                    end in
                  match r' with
                  | d :: r'' =>
                      if is_digit d then
                        let '(acc, s) := take_digits r'' (d :: acc) in
                        Some (rev acc, s)
                      else None
                  | [] => None
                  end
                else Some (rev acc, s)
            | [] => Some (rev acc, s)
            end
        | None => None
        end
      else None
  | [] => None
  end.

(** Values, array elements after [[] and members after [{], with fuel for
    the nesting and the number of items. *)
Fixpoint parse_value (fuel : nat) (s : list ascii)
  : option (Value * list ascii) :=
  match fuel with
  | O => None
  | S fuel =>
      match skip_ws s with
      | "n" :: "u" :: "l" :: "l" :: rest => Some (VNull, rest)
      | "t" :: "r" :: "u" :: "e" :: rest => Some (VBool true, rest)
      | "f" :: "a" :: "l" :: "s" :: "e" :: rest => Some (VBool false, rest)
      | "034" :: rest =>
          match parse_chars rest [] with
          | Some (cs, rest') => Some (VString (string_of_list_ascii cs), rest')
          | None => None
          end
      | "[" :: rest =>
          match skip_ws rest with
          | "]" :: rest' => Some (VArray [], rest')
          | _ => parse_elements fuel rest []
          end
      | "{" :: rest =>
          match skip_ws rest with
          | "}" :: rest' => Some (VObject [], rest')
          | _ => parse_members fuel rest []
          end
      | rest =>
          match parse_number rest with
          | Some (cs, rest') => Some (VNumber (string_of_list_ascii cs), rest')
          | None => None
          end
      end
  end
with parse_elements (fuel : nat) (s : list ascii) (acc : list Value)
  : option (Value * list ascii) :=
  match fuel with
  | O => None
  | S fuel =>
      match parse_value fuel s with
      | Some (v, rest) =>
          match skip_ws rest with
          | "," :: rest' => parse_elements fuel rest' (v :: acc)
          | "]" :: rest' => Some (VArray (rev (v :: acc)), rest')
          | _ => None
          end
      | None => None
      end
  end
with parse_members (fuel : nat) (s : list ascii)
    (acc : list (string * Value)) : option (Value * list ascii) :=
  match fuel with
  | O => None
  | S fuel =>
      match skip_ws s with
      | "034" :: rest =>
          match parse_chars rest [] with
          | Some (cs, rest') =>
              match skip_ws rest' with
              | ":" :: rest'' =>
                  match parse_value fuel rest'' with
                  | Some (v, rest3) =>
                      let acc := obj_set acc (string_of_list_ascii cs) v in
                      match skip_ws rest3 with
                      | "," :: rest4 => parse_members fuel rest4 acc
                      | "}" :: rest4 => Some (VObject acc, rest4)
                      | _ => None
                      end
                  | None => None
                  end
              | _ => None
              end
          | None => None
          end
      | _ => None
      end
  end.

(** [JSON.parse(text)]; [None] stands for the SyntaxError it throws. *)
Definition parse (text : string) : option Value :=
  let s := list_ascii_of_string text in
  match parse_value (2 * length s + 2) s with
  | Some (v, rest) =>
      match skip_ws rest with
      | [] => Some v
      | _ => None
      end
  | None => None
  end.

Definition hex_digit (n : N) : ascii :=
  if (n <? 10)%N then ascii_of_N (48 + n) else ascii_of_N (87 + n).

Definition quote_char (c : ascii) : list ascii :=
  match c with
  | "034" => ["\"; "034"]
  | "\" => ["\"; "\"]
  | "008" => ["\"; "b"]
  | "012" => ["\"; "f"]
  | "010" => ["\"; "n"]
  | "013" => ["\"; "r"]
  | "009" => ["\"; "t"]
  | _ =>
      let n := N_of_ascii c in
      if (n <? 32)%N
      then ["\"; "u"; "0"; "0"; hex_digit (n / 16); hex_digit (n mod 16)]
      else [c]
  end.

Definition quote (s : string) : string :=
  string_of_list_ascii
    ("034" :: flat_map quote_char (list_ascii_of_string s) ++ ["034"]).

Fixpoint join (sep : string) (parts : list string) : string :=
  match parts with
  | [] => EmptyString
  | [p] => p
  | p :: rest => String.append p (String.append sep (join sep rest))
  end.

(** [JSON.stringify(v)]; [None] stands for [undefined]. A property whose
    value is [undefined] is left out and an [undefined] array element is
    written [null]. *)
Fixpoint stringify (v : Value) : option string :=
  match v with
  | VUndefined => None
  | VNull => Some "null"%string
  | VBool true => Some "true"%string
  | VBool false => Some "false"%string
  | VNumber lexeme => Some lexeme
  | VString s => Some (quote s)
  | VArray items =>
      Some (String.append "["
              (String.append
                 (join "," (map (fun x => default "null"%string (stringify x))
                                items))
                 "]"))
  | VObject fields =>
      Some (String.append "{"
              (String.append
                 (join ","
                    (flat_map
                       (fun kv =>
                          match stringify (snd kv) with
                          | Some text =>
                              [String.append (quote (fst kv))
                                 (String.append ":" text)]
                          | None => []
                          end)
                       fields))
                 "}"))
  end.

End JSON.

Local Open Scope string_scope.
Local Open Scope list_scope.

(** ** Browser objects *)

Inductive ReadyState : Type :=
  | rs_connecting
  | rs_open
  | rs_closing
  | rs_closed.

#[export] Instance ReadyState_eq_dec : EqDecision ReadyState.
Proof. solve_decision. Defined.

(** A [MediaStreamTrack]: what it carries and whether it is enabled (a
    disabled audio track sends silence). *)
Record MediaStreamTrack : Type := {
  track_kind : string;
  track_enabled : bool
}.

(** An [RTCPeerConnection]: closed or not, the tracks added to it (by their
    place in the world's track list), the descriptions applied to it. *)
Record RTCPeerConnection : Type := {
  pc_closed : bool;
  pc_ontrack : bool;
  pc_senders : list nat;
  pc_localDescription : option string;
  pc_remoteDescription : option string
}.

(** An [RTCDataChannel]: the peer connection that created it, its label and
    state, whether the hook's message listener is attached, and the texts
    sent over it, oldest first. *)
Record RTCDataChannel : Type := {
  dc_owner : nat;
  dc_label : string;
  dc_readyState : ReadyState;
  dc_listening : bool;
  dc_sent : list string
}.

(** ** State of the page and of the hook *)

Inductive Source : Type :=
  | client
  | server.

(** [RealtimeEvent] *)
Record RealtimeEvent : Type := {
  time : string;
  source : Source;
  event : Value
}.

(** Everything the hook and the page can read or write: the hook's two refs
    and two state cells, the page's event list and memory, and the browser
    objects behind the refs. A peer connection, a data channel or a track is
    named by its place in the list that holds it. *)
Record World : Type := {
  peerConnectionRef : option nat;
  dataChannelRef : option nat;
  isConnected : bool;
  isMuted : bool;
  realtimeEvents : list RealtimeEvent;
  memoryKv : list (string * Value);
  peerConnections : list RTCPeerConnection;
  dataChannels : list RTCDataChannel;
  tracks : list MediaStreamTrack;
  console : list string
}.

(** The page as first rendered: nothing connected, [memoryKv] as
    initialised by [ConsolePage] for the date [today]. *)
Definition initial_world (today : string) : World := {|
  peerConnectionRef := None;
  dataChannelRef := None;
  isConnected := false;
  isMuted := false;
  realtimeEvents := [];
  memoryKv := [("userName", VString "swyx"); ("todaysDate", VString today)];
  peerConnections := [];
  dataChannels := [];
  tracks := [];
  console := []
|}.

Definition set_peerConnectionRef (r : option nat) (w : World) : World :=
  {| peerConnectionRef := r; dataChannelRef := dataChannelRef w;
     isConnected := isConnected w; isMuted := isMuted w;
     realtimeEvents := realtimeEvents w; memoryKv := memoryKv w;
     peerConnections := peerConnections w; dataChannels := dataChannels w;
     tracks := tracks w; console := console w |}.

Definition set_dataChannelRef (r : option nat) (w : World) : World :=
  {| peerConnectionRef := peerConnectionRef w; dataChannelRef := r;
     isConnected := isConnected w; isMuted := isMuted w;
     realtimeEvents := realtimeEvents w; memoryKv := memoryKv w;
     peerConnections := peerConnections w; dataChannels := dataChannels w;
     tracks := tracks w; console := console w |}.

Definition setIsConnected (b : bool) (w : World) : World :=
  {| peerConnectionRef := peerConnectionRef w;
     dataChannelRef := dataChannelRef w;
     isConnected := b; isMuted := isMuted w;
     realtimeEvents := realtimeEvents w; memoryKv := memoryKv w;
     peerConnections := peerConnections w; dataChannels := dataChannels w;
     tracks := tracks w; console := console w |}.

(** [setIsMuted], the setter of the [isMuted] state cell, as the hook
    returns it. *)
Definition setIsMuted (b : bool) (w : World) : World :=
  {| peerConnectionRef := peerConnectionRef w;
     dataChannelRef := dataChannelRef w;
     isConnected := isConnected w; isMuted := b;
     realtimeEvents := realtimeEvents w; memoryKv := memoryKv w;
     peerConnections := peerConnections w; dataChannels := dataChannels w;
     tracks := tracks w; console := console w |}.

(** [setRealtimeEvents(f)] *)
Definition setRealtimeEvents
    (f : list RealtimeEvent -> list RealtimeEvent) (w : World) : World :=
  {| peerConnectionRef := peerConnectionRef w;
     dataChannelRef := dataChannelRef w;
     isConnected := isConnected w; isMuted := isMuted w;
     realtimeEvents := f (realtimeEvents w); memoryKv := memoryKv w;
     peerConnections := peerConnections w; dataChannels := dataChannels w;
     tracks := tracks w; console := console w |}.

(** [setMemoryKv(f)] *)
Definition setMemoryKv
    (f : list (string * Value) -> list (string * Value)) (w : World) : World :=
  {| peerConnectionRef := peerConnectionRef w;
     dataChannelRef := dataChannelRef w;
     isConnected := isConnected w; isMuted := isMuted w;
     realtimeEvents := realtimeEvents w; memoryKv := f (memoryKv w);
     peerConnections := peerConnections w; dataChannels := dataChannels w;
     tracks := tracks w; console := console w |}.

Definition set_peerConnections (l : list RTCPeerConnection) (w : World)
  : World :=
  {| peerConnectionRef := peerConnectionRef w;
     dataChannelRef := dataChannelRef w;
     isConnected := isConnected w; isMuted := isMuted w;
     realtimeEvents := realtimeEvents w; memoryKv := memoryKv w;
     peerConnections := l; dataChannels := dataChannels w;
     tracks := tracks w; console := console w |}.

Definition set_dataChannels (l : list RTCDataChannel) (w : World) : World :=
  {| peerConnectionRef := peerConnectionRef w;
     dataChannelRef := dataChannelRef w;
     isConnected := isConnected w; isMuted := isMuted w;
     realtimeEvents := realtimeEvents w; memoryKv := memoryKv w;
     peerConnections := peerConnections w; dataChannels := l;
     tracks := tracks w; console := console w |}.

Definition set_tracks (l : list MediaStreamTrack) (w : World) : World :=
  {| peerConnectionRef := peerConnectionRef w;
     dataChannelRef := dataChannelRef w;
     isConnected := isConnected w; isMuted := isMuted w;
     realtimeEvents := realtimeEvents w; memoryKv := memoryKv w;
     peerConnections := peerConnections w; dataChannels := dataChannels w;
     tracks := l; console := console w |}.

(** [console.error(message, ...)] *)
Definition console_error (message : string) (w : World) : World :=
  {| peerConnectionRef := peerConnectionRef w;
     dataChannelRef := dataChannelRef w;
     isConnected := isConnected w; isMuted := isMuted w;
     realtimeEvents := realtimeEvents w; memoryKv := memoryKv w;
     peerConnections := peerConnections w; dataChannels := dataChannels w;
     tracks := tracks w; console := console w ++ [message] |}.

(** ** Exceptions and the calls that may throw *)

Inductive Exn : Type :=
  | Error (message : string)
  | TypeError (message : string)
  | SyntaxError
  | DOMException (name : string).

Inductive Outcome (A : Type) : Type :=
  | Returned (a : A)
  | Thrown (e : Exn).
Arguments Returned {A} a.
Arguments Thrown {A} e.

(** A computation on the world that returns or throws. *)
Definition M (A : Type) : Type := World -> Outcome A * World.

Definition ret {A : Type} (a : A) : M A := fun w => (Returned a, w).

Definition throw {A : Type} (e : Exn) : M A := fun w => (Thrown e, w).

Definition bind {A B : Type} (c : M A) (k : A -> M B) : M B :=
  fun w =>
    match c w with
    | (Returned a, w') => k a w'
    | (Thrown e, w') => (Thrown e, w')
    end.

(** [try { body } catch (e) { handler }] *)
Definition try_catch {A : Type} (body : M A) (handler : Exn -> M A) : M A :=
  fun w =>
    match body w with
    | (Returned a, w') => (Returned a, w')
    | (Thrown e, w') => handler e w'
    end.

(** A statement that only changes the world. *)
Definition modify (f : World -> World) : M unit := fun w => (Returned tt, f w).

Definition get_world : M World := fun w => (Returned w, w).

Notation "'let*' x ':=' c 'in' k" := (bind c (fun x => k))
  (at level 10, x name, c at level 100, k at level 200).

(** ** What the outside answers during one call of connect *)

(** A [fetch]: it rejects (no response at all) or resolves to a response
    with a status and a body. *)
Inductive FetchResult : Type :=
  | fetch_rejected
  | fetch_response (status : nat) (body : string).

(** [response.ok] *)
Definition response_ok (status : nat) : bool :=
  ((200 <=? status) && (status <=? 299))%nat.

(** The answers awaited by one call of [connect], in the order it awaits
    them: the credential fetch, the microphone ([None]: refused), the offer
    ([None]: [createOffer] rejects), whether the local description is
    accepted, the negotiation fetch, whether the remote description is
    accepted, and whether the data channel has opened by the time [connect]
    looks at its state. *)
Record ConnectEnv : Type := {
  session_fetch : FetchResult;
  user_media : option (list MediaStreamTrack);
  offer : option string;
  local_description_ok : bool;
  negotiation_fetch : FetchResult;
  remote_description_ok : bool;
  channel_opens : bool
}.

(** A registered tool: the fields of its schema and its handler, which acts
    on the page. *)
Record Tool : Type := {
  schema : list (string * Value);
  fn : Value -> World -> World
}.

(** ** The hook: useRealtimeWebRTC *)

Section Hook.
(** The arguments the page passes to the hook. *)
Variable initialInstructions : string.
Variable tools : option (list Tool).

(** [channel.close()]: an open or connecting channel starts closing. *)
Definition close_channel (ch : RTCDataChannel) : RTCDataChannel :=
  {| dc_owner := dc_owner ch; dc_label := dc_label ch;
     dc_readyState :=
       match dc_readyState ch with
       | rs_closed => rs_closed
       | _ => rs_closing
       end;
     dc_listening := dc_listening ch; dc_sent := dc_sent ch |}.

(** What [pc.close()] does to a channel: the channels of the closed
    connection are closed at once. *)
Definition shut_channel (pc : nat) (ch : RTCDataChannel) : RTCDataChannel :=
  if decide (dc_owner ch = pc)
  then {| dc_owner := dc_owner ch; dc_label := dc_label ch;
          dc_readyState := rs_closed;
          dc_listening := dc_listening ch; dc_sent := dc_sent ch |}
  else ch.

Definition close_connection (c : RTCPeerConnection) : RTCPeerConnection :=
  {| pc_closed := true; pc_ontrack := pc_ontrack c;
     pc_senders := pc_senders c;
     pc_localDescription := pc_localDescription c;
     pc_remoteDescription := pc_remoteDescription c |}.

(** [disconnect] *)
Definition disconnect (w : World) : World :=
  let w :=
    match dataChannelRef w with
    | Some d => set_dataChannels (alter close_channel d (dataChannels w)) w
    | None => w
    end in
  let w :=
    match peerConnectionRef w with
    | Some p =>
        set_dataChannels (map (shut_channel p) (dataChannels w))
          (set_peerConnections
             (alter close_connection p (peerConnections w)) w)
    | None => w
    end in
  let w := set_peerConnectionRef None w in
  let w := set_dataChannelRef None w in
  setIsConnected false w.

(** [dataChannelRef.current?.readyState === "open"] *)
Definition channel_is_open (w : World) : bool :=
  match dataChannelRef w with
  | Some d =>
      match dataChannels w !! d with
      | Some ch => bool_decide (dc_readyState ch = rs_open)
      | None => false
      end
  | None => false
  end.

(** [channel.send(text)]; [JSON.stringify] of [undefined] is [undefined],
    which is sent as that word. *)
Definition channel_send (d : nat) (text : option string) (w : World)
  : World :=
  set_dataChannels
    (alter
       (fun ch =>
          {| dc_owner := dc_owner ch; dc_label := dc_label ch;
             dc_readyState := dc_readyState ch;
             dc_listening := dc_listening ch;
             dc_sent := dc_sent ch ++ [default "undefined" text] |})
       d (dataChannels w))
    w.

(** [sendEvent(event)], called at time [now]. *)
Definition sendEvent (ev : Value) (now : string) : M unit :=
  fun w =>
    if channel_is_open w then
      match dataChannelRef w with
      | Some d =>
          let w := channel_send d (JSON.stringify ev) w in
          (Returned tt,
           setRealtimeEvents
             (fun prev =>
                prev ++ [{| time := now; source := client; event := ev |}])
             w)
      | None => (Returned tt, w)
      end
    else (Returned tt, w).

(** The listener [connect] attaches to the data channel for "message"
    events; [payload] is [e.data]. *)
Definition on_message (payload : string) (now : string) : M unit :=
  let* ev :=
    (match JSON.parse payload with
     | Some v => ret v
     | None => throw SyntaxError
     end) in
  modify
    (setRealtimeEvents
       (fun prev =>
          prev ++ [{| time := now; source := server; event := ev |}])).

(** [{ type: "function", ...t.schema }] *)
Definition tool_declaration (t : Tool) : Value :=
  VObject (fold_left (fun fields kv => obj_set fields (fst kv) (snd kv))
             (schema t) [("type", VString "function")]).

(** The [session.update] event [connect] sends. *)
Definition session_update : Value :=
  VObject
    [("type", VString "session.update");
     ("session",
      VObject
        [("instructions", VString initialInstructions);
         ("tools",
          match tools with
          | Some ts => VArray (map tool_declaration ts)
          | None => VUndefined
          end)])].

Definition new_connection : RTCPeerConnection :=
  {| pc_closed := false; pc_ontrack := false; pc_senders := [];
     pc_localDescription := None; pc_remoteDescription := None |}.

Definition update_connection (p : nat)
    (f : RTCPeerConnection -> RTCPeerConnection) : M unit :=
  modify (fun w => set_peerConnections (alter f p (peerConnections w)) w).

Definition update_channel (d : nat)
    (f : RTCDataChannel -> RTCDataChannel) : M unit :=
  modify (fun w => set_dataChannels (alter f d (dataChannels w)) w).

(** [pc.addTrack(track, stream)] for a track the microphone delivered. *)
Definition add_track (p : nat) (w : World) (t : MediaStreamTrack) : World :=
  let id := length (tracks w) in
  set_peerConnections
    (alter
       (fun c =>
          {| pc_closed := pc_closed c; pc_ontrack := pc_ontrack c;
             pc_senders := pc_senders c ++ [id];
             pc_localDescription := pc_localDescription c;
             pc_remoteDescription := pc_remoteDescription c |})
       p (peerConnections w))
    (set_tracks (tracks w ++ [t]) w).

(** [await fetch(...)], then the check of [response.ok]. *)
Definition fetch_ok (r : FetchResult) (failure : string) : M string :=
  match r with
  | fetch_rejected => throw (TypeError "Failed to fetch")
  | fetch_response status body =>
      if response_ok status then ret body else throw (Error failure)
  end.

(** [data.client_secret.value] *)
Definition client_secret_value (data : Value) : M Value :=
  match data with
  | VUndefined | VNull =>
      throw (TypeError "Cannot read properties of null")
  | _ =>
      match get_field data "client_secret" with
      | VUndefined | VNull =>
          throw (TypeError "Cannot read properties of undefined")
      | secret => ret (get_field secret "value")
      end
  end.

(** The [try] block of [connect], in four stretches. First the
    credential: the fetch of the session route, the check of
    [response.ok], [response.json()] and [data.client_secret.value]. *)
Definition acquire_credential (env : ConnectEnv) : M Value :=
  let* body := fetch_ok (session_fetch env) "Failed to get session token" in
  let* data :=
    (match JSON.parse body with
     | Some v => ret v
     | None => throw SyntaxError
     end) in
  client_secret_value data.

Definition set_ontrack (c : RTCPeerConnection) : RTCPeerConnection :=
  {| pc_closed := pc_closed c; pc_ontrack := true;
     pc_senders := pc_senders c;
     pc_localDescription := pc_localDescription c;
     pc_remoteDescription := pc_remoteDescription c |}.

Definition set_listening (ch : RTCDataChannel) : RTCDataChannel :=
  {| dc_owner := dc_owner ch; dc_label := dc_label ch;
     dc_readyState := dc_readyState ch;
     dc_listening := true; dc_sent := dc_sent ch |}.

(** Then the transport: [new RTCPeerConnection()] stored in
    [peerConnectionRef], [pc.ontrack], [pc.createDataChannel] stored in
    [dataChannelRef], and the message listener. Returns [(pc, dc)]. *)
Definition open_transport : M (nat * nat) :=
  let* w0 := get_world in
  let p := length (peerConnections w0) in
  let* _ :=
    modify (fun w =>
              set_peerConnections (peerConnections w ++ [new_connection]) w) in
  let* _ := modify (set_peerConnectionRef (Some p)) in
  let* _ := update_connection p set_ontrack in
  let d := length (dataChannels w0) in
  let* _ :=
    modify (fun w =>
              set_dataChannels
                (dataChannels w
                 ++ [{| dc_owner := p; dc_label := "oai-events";
                        dc_readyState := rs_connecting;
                        dc_listening := false; dc_sent := [] |}])
                w) in
  let* _ := modify (set_dataChannelRef (Some d)) in
  let* _ := update_channel d set_listening in
  ret (p, d).

(** Then the microphone, in a [try] of its own: a refusal is logged and
    [connect] goes on. *)
Definition attach_microphone (env : ConnectEnv) (p : nat) : M unit :=
  try_catch
    (match user_media env with
     | Some stream => modify (fun w => fold_left (add_track p) stream w)
     | None => throw (DOMException "NotAllowedError")
     end)
    (fun _ => modify (console_error "Error accessing microphone:")).

Definition set_localDescription (sdp : string) (c : RTCPeerConnection)
  : RTCPeerConnection :=
  {| pc_closed := pc_closed c; pc_ontrack := pc_ontrack c;
     pc_senders := pc_senders c;
     pc_localDescription := Some sdp;
     pc_remoteDescription := pc_remoteDescription c |}.

Definition set_remoteDescription (sdp : string) (c : RTCPeerConnection)
  : RTCPeerConnection :=
  {| pc_closed := pc_closed c; pc_ontrack := pc_ontrack c;
     pc_senders := pc_senders c;
     pc_localDescription := pc_localDescription c;
     pc_remoteDescription := Some sdp |}.

Definition set_open (ch : RTCDataChannel) : RTCDataChannel :=
  {| dc_owner := dc_owner ch; dc_label := dc_label ch;
     dc_readyState := rs_open;
     dc_listening := dc_listening ch; dc_sent := dc_sent ch |}.

(** Last the negotiation: offer, local description, the fetch of the
    answer with the credential as bearer token, the check of
    [sdpResponse.ok], remote description, [setIsConnected(true)], and the
    [session.update] event if the channel is open by then. *)
Definition negotiate (env : ConnectEnv) (ephemeralKey : Value) (p d : nat)
  : M unit :=
  let* sdp :=
    (match offer env with
     | Some sdp => ret sdp
     | None => throw (DOMException "OperationError")
     end) in
  let* _ :=
    (if local_description_ok env
     then update_connection p (set_localDescription sdp)
     else throw (DOMException "InvalidStateError")) in
  let* answer :=
    fetch_ok (negotiation_fetch env) "Failed to establish WebRTC connection" in
  let* _ :=
    (if remote_description_ok env
     then update_connection p (set_remoteDescription answer)
     else throw (DOMException "InvalidAccessError")) in
  let* _ := (if channel_opens env then update_channel d set_open else ret tt) in
  let* _ := modify (setIsConnected true) in
  let* w1 := get_world in
  match dataChannels w1 !! d with
  | Some ch =>
      if bool_decide (dc_readyState ch = rs_open)
      then modify (channel_send d (JSON.stringify session_update))
      else ret tt
  | None => ret tt
  end.

Definition connect_body (env : ConnectEnv) : M unit :=
  let* ephemeralKey := acquire_credential env in
  let* pd := open_transport in
  let* _ := attach_microphone env (fst pd) in
  negotiate env ephemeralKey (fst pd) (snd pd).

(** [connect] from the point where the credential fetch settles: the [try]
    block and its [catch]. Between the guard and this point the call is
    suspended at [await fetch(...)]. *)
Definition connect_resume (env : ConnectEnv) : M unit :=
  try_catch (connect_body env)
    (fun _ =>
       let* _ := modify (console_error "Connection error:") in
       modify disconnect).

(** [connect], when nothing else runs while it is suspended: the guard, then
    the rest with the answers of [env]. *)
Definition connect (env : ConnectEnv) : M unit :=
  fun w =>
    match peerConnectionRef w with
    | Some _ => (Returned tt, w)
    | None => connect_resume env w
    end.

End Hook.

(** ** The page: ConsolePage *)

(** A value used as a computed property name ([{ [key]: value }]). An
    object or array key is not written out in full here. *)
Definition property_key (v : Value) : string :=
  match v with
  | VUndefined => "undefined"
  | VNull => "null"
  | VBool true => "true"
  | VBool false => "false"
  | VNumber lexeme => lexeme
  | VString s => s
  | VArray _ => "[array]"
  | VObject _ => "[object Object]"
  end.

(** The handler of [set_memory]: [setMemoryKv(prev => ({ ...prev, [key]:
    value }))] after destructuring [{ key, value }] from its argument, which
    throws (a promise rejected, nothing changed) on [null] and [undefined]. *)
Definition set_memory_fn (args : Value) (w : World) : World :=
  match args with
  | VUndefined | VNull => w
  | _ =>
      setMemoryKv
        (fun prev =>
           obj_set prev (property_key (get_field args "key"))
             (get_field args "value"))
        w
  end.

Definition set_memory : Tool := {|
  schema :=
    [("name", VString "set_memory");
     ("description",
      VString "Saves important data about the user into memory. If keys are close, prefer overwriting keys rather than creating new keys.");
     ("parameters",
      VObject
        [("type", VString "object");
         ("properties",
          VObject
            [("key",
              VObject
                [("type", VString "string");
                 ("description",
                  VString "The key of the memory value. Always use lowercase and underscores, no other characters.")]);
             ("value",
              VObject
                [("type", VString "string");
                 ("description",
                  VString "Value can be anything represented as a string")])]);
         ("required", VArray [VString "key"; VString "value"])])];
  fn := set_memory_fn
|}.

(** The tools [ConsolePage] registers. *)
Definition page_tools : option (list Tool) := Some [set_memory].

(** ** The clock of the event list (formatTime in ConsolePage) *)

(** The time value of a [Date]: a whole number of milliseconds, or NaN
    ([None]) for a date that could not be read. The arithmetic below is the
    arithmetic of doubles as long as the difference of the two time values
    stays below 2^53 in magnitude, which it does for any two dates less than
    285 thousand years apart. *)
Definition TimeValue : Type := option Z.

(** [n + ''] for a whole number or NaN. *)
Definition number_text (n : option Z) : string :=
  match n with
  | Some z => NilZero.string_of_int (Z.to_int z)
  | None => "NaN"
  end.

(** The loop of [pad]: [while (s.length < 2) s = '0' + s]. Two turns are
    all it can take. *)
Fixpoint pad_loop (turns : nat) (s : string) : string :=
  match turns with
  | O => s
  | S turns =>
      if (String.length s <? 2)%nat then pad_loop turns ("0" +:+ s) else s
  end.

Definition pad (n : option Z) : string := pad_loop 2 (number_text n).

(** [Math.floor(delta / unit) % modulus]; [%] takes the sign of the
    dividend. *)
Definition clock_field (delta : option Z) (unit modulus : Z) : option Z :=
  match delta with
  | Some d => Some (Z.rem (d / unit) modulus)
  | None => None
  end.

(** [formatTime(timestamp)], from the time values of [startTimeRef.current]
    and of [timestamp]. *)
Definition formatTime (startTime timestamp : TimeValue) : string :=
  let delta :=
    match timestamp, startTime with
    | Some t1, Some t0 => Some (t1 - t0)
    | _, _ => None
    end in
  let hs := clock_field delta 10 100 in
  let s := clock_field delta 1000 60 in
  let m := clock_field delta 60000 60 in
  pad m +:+ ":" +:+ pad s +:+ "." +:+ pad hs.

(** ** Everything that can happen to a session *)

(** A call of the hook made by the page, or an event the browser delivers
    on a data channel. *)
Inductive Action : Type :=
  | call_connect (env : ConnectEnv)
  | call_disconnect
  | call_sendEvent (ev : Value) (now : string)
  | call_setIsMuted (b : bool)
  | channel_opened (d : nat)
  | channel_message (d : nat) (payload now : string).

Section Actions.
Variable initialInstructions : string.
Variable tools : option (list Tool).

(** A message is delivered to the listener of an open channel; an
    exception the listener throws goes to the browser, and the session
    goes on from the world the listener left. *)
Definition deliver (d : nat) (payload now : string) (w : World) : World :=
  match dataChannels w !! d with
  | Some ch =>
      if (dc_listening ch && bool_decide (dc_readyState ch = rs_open))%bool
      then snd (on_message payload now w)
      else w
  | None => w
  end.

Definition open_channel (ch : RTCDataChannel) : RTCDataChannel :=
  match dc_readyState ch with
  | rs_connecting => set_open ch
  | _ => ch
  end.

Definition step (a : Action) (w : World) : World :=
  match a with
  | call_connect env => snd (connect initialInstructions tools env w)
  | call_disconnect => disconnect w
  | call_sendEvent ev now => snd (sendEvent ev now w)
  | call_setIsMuted b => setIsMuted b w
  | channel_opened d =>
      set_dataChannels (alter open_channel d (dataChannels w)) w
  | channel_message d payload now => deliver d payload now w
  end.

(** The world after a history of actions, oldest first. *)
Definition run (history : list Action) (w : World) : World :=
  fold_left (fun w a => step a w) history w.

(** [connect] is an async function: a call runs up to [await fetch(...)]
    and the page goes on; the rest runs when the fetch settles. Here a call
    is taken in these two pieces, with any action in between. *)
Inductive AsyncAction : Type :=
  | serial (a : Action)
  | connect_called
  | credential_settled (env : ConnectEnv).

(** The world, and how many calls of [connect] have passed the guard and
    wait for their credential. *)
Definition async_step (a : AsyncAction) (s : World * nat) : World * nat :=
  match a with
  | serial a => (step a (fst s), snd s)
  | connect_called =>
      match peerConnectionRef (fst s) with
      | Some _ => s
      | None => (fst s, S (snd s))
      end
  | credential_settled env =>
      match snd s with
      | O => s
      | S waiting =>
          (snd (connect_resume initialInstructions tools env (fst s)), waiting)
      end
  end.

Definition async_run (history : list AsyncAction) (s : World * nat)
  : World * nat :=
  fold_left (fun s a => async_step a s) history s.

End Actions.

(** ** The older copy of the hook *)

Module Legacy.
Section Hook.
Variable initialInstructions : string.
Variable tools : option (list Tool).

(** The negotiation of the older [connect]: as in the newer one, but the
    answer is used whatever the status of the response. *)
Definition negotiate (env : ConnectEnv) (p d : nat) : M unit :=
  let* sdp :=
    (match offer env with
     | Some sdp => ret sdp
     | None => throw (DOMException "OperationError")
     end) in
  let* _ :=
    (if local_description_ok env
     then update_connection p (set_localDescription sdp)
     else throw (DOMException "InvalidStateError")) in
  let* answer :=
    (match negotiation_fetch env with
     | fetch_rejected => throw (TypeError "Failed to fetch")
     | fetch_response _ body => ret body
     end) in
  let* _ :=
    (if remote_description_ok env
     then update_connection p (set_remoteDescription answer)
     else throw (DOMException "InvalidAccessError")) in
  let* _ := (if channel_opens env then update_channel d set_open else ret tt) in
  let* _ := modify (setIsConnected true) in
  let* w1 := get_world in
  match dataChannels w1 !! d with
  | Some ch =>
      if bool_decide (dc_readyState ch = rs_open)
      then modify (channel_send d
                     (JSON.stringify (session_update initialInstructions tools)))
      else ret tt
  | None => ret tt
  end.

(** The older [connect]: the guard, then the transport at once (the handle
    is stored before anything is awaited), the microphone, the negotiation.
    Nothing catches what the negotiation throws: the promise [connect]
    returned is rejected and the state is left as it was at the throw. *)
Definition connect (env : ConnectEnv) : M unit :=
  fun w =>
    match peerConnectionRef w with
    | Some _ => (Returned tt, w)
    | None =>
        (let* pd := open_transport in
         let* _ := attach_microphone env (fst pd) in
         negotiate env (fst pd) (snd pd)) w
    end.

End Hook.
End Legacy.

(** ** The server: the route of the ephemeral token *)

(** What the route answers: a status and a JSON body. *)
Record RouteResponse : Type := {
  route_status : nat;
  route_body : string;
  route_logged : list string
}.

Definition token_failure : Value :=
  VObject [("error", VString "Failed to generate session token")].

(** [app.post('/api/session', ...)]: [upstream] is what the fetch of the
    sessions endpoint settles to. [res.json(data)] answers 200 with the
    JSON text of [data]; the [catch] logs and answers 500. *)
Definition session_route (upstream : FetchResult) : RouteResponse :=
  let failed :=
    {| route_status := 500;
       route_body := default "undefined" (JSON.stringify token_failure);
       route_logged := ["Error generating session:"] |} in
  match upstream with
  | fetch_rejected => failed
  | fetch_response status body =>
      if response_ok status then
        match JSON.parse body with
        | Some data =>
            {| route_status := 200;
               route_body := default "undefined" (JSON.stringify data);
               route_logged := [] |}
        | None => failed
        end
      else failed
  end.

(** The response the page's [fetch] of the route resolves to. *)
Definition served (r : RouteResponse) : FetchResult :=
  fetch_response (route_status r) (route_body r).

(** * The specification's side, scenarios, and the vocabulary of the proofs *)

(** ** Signal normalizer *)

(** The value [normalizeSample] computes on a rational, as a rational. *)
Definition sampleQ (x : Q) : Q :=
  let db := Qmax (inject_Z (-100)) (Qmin (inject_Z (-30)) x) in
  let r := ((db - inject_Z (-100)) / (inject_Z (-30) - inject_Z (-100)))%Q in
  (r * r)%Q.

(** The bucket the specification names for input index [i]. *)
Definition bucket_of (m n i : nat) : nat := (i * m / n)%nat.

(** *** What the specification says the averaging mode computes *)






Fixpoint bucket_count (data : list Q) (m : nat) (j k : nat) : Q :=
  match j with
  | O => inject_Z 0
  | S j' =>
      if decide (bucket_of m (length data) j' = k)
      then (bucket_count data m j' k + inject_Z 1)%Q
      else bucket_count data m j' k
  end.


(** ** Session *)

(** *** What the specification asks for, where the hook has no code for it *)

(** The name and the argument text of a function-call-completion event. *)
Definition function_call_done (ev : Value) : option (string * string) :=
  match get_field ev "type", get_field ev "name", get_field ev "arguments" with
  | VString type, VString name, VString arguments =>
      if String.eqb type "response.function_call_arguments.done"
      then Some (name, arguments) else None
  | _, _, _ => None
  end.

Definition tool_name (t : Tool) : Value := obj_get (schema t) "name".

Definition find_tool (tools : option (list Tool)) (name : string)
  : option Tool :=
  match tools with
  | Some ts =>
      find (fun t =>
              match tool_name t with
              | VString n => String.eqb n name
              | _ => false
              end) ts
  | None => None
  end.

(** The handler calls the specification asks for on an inbound event: the
    handler of the registered tool the event names, once, with the decoded
    arguments. *)
Definition expected_tool_calls (tools : option (list Tool)) (ev : Value)
  : list (Tool * Value) :=
  match function_call_done ev with
  | Some (name, arguments) =>
      match find_tool tools name, JSON.parse arguments with
      | Some t, Some args => [(t, args)]
      | _, _ => []
      end
  | None => []
  end.

(** The tracks the specification asks a mute to disable: those attached to
    the transport the session holds. *)
Definition session_tracks (w : World) : list nat :=
  match peerConnectionRef w with
  | Some p =>
      match peerConnections w !! p with
      | Some c => pc_senders c
      | None => []
      end
  | None => []
  end.

(** *** Scenarios *)

Definition successful_env : ConnectEnv := {|
  session_fetch :=
    fetch_response 200
      (default EmptyString
         (JSON.stringify
            (VObject [("client_secret", VObject [("value", VString "ek_1")])])));
  user_media := Some [{| track_kind := "audio"; track_enabled := true |}];
  offer := Some "v=0 offer";
  local_description_ok := true;
  negotiation_fetch := fetch_response 201 "v=0 answer";
  remote_description_ok := true;
  channel_opens := true
|}.

(** A session connected from the first render, its data channel open. *)
Definition connected_world : World :=
  snd (connect "instructions" page_tools successful_env
         (initial_world "2025-01-01")).

Definition rejected_env : ConnectEnv := {|
  session_fetch := fetch_response 500 "Failed to generate session token";
  user_media := Some [{| track_kind := "audio"; track_enabled := true |}];
  offer := Some "v=0 offer";
  local_description_ok := true;
  negotiation_fetch := fetch_response 201 "v=0 answer";
  remote_description_ok := true;
  channel_opens := true
|}.

Definition force_reply : Value :=
  VObject
    [("type", VString "response.create");
     ("response",
      VObject [("modalities", VArray [VString "text"; VString "audio"])])].

Definition city_arguments : Value :=
  VObject [("key", VString "city"); ("value", VString "nyc")].

(** The inbound event of the specification's example, as the server
    writes it: the arguments are themselves JSON text inside the event. *)
Definition set_memory_call : Value :=
  VObject
    [("type", VString "response.function_call_arguments.done");
     ("name", VString "set_memory");
     ("arguments",
      VString (default EmptyString (JSON.stringify city_arguments)))].

Definition set_memory_payload : string :=
  default EmptyString (JSON.stringify set_memory_call).

(** *** Live transports *)

Definition closed_flags (w : World) : list bool :=
  map pc_closed (peerConnections w).

(** Connection [i] exists and has not been closed. *)
Definition is_live (w : World) (i : nat) : Prop :=
  closed_flags w !! i = Some false.

(** How many connections exist that have not been closed. *)
Definition live_transports (w : World) : nat :=
  length (filter (fun b => b = false) (closed_flags w)).

(** The connections that are live are exactly the one the session holds. *)
Definition transport_invariant (w : World) : Prop :=
  forall i, is_live w i <-> peerConnectionRef w = Some i.

(** *** What a computation leaves alone *)

(** [c] relates the world it starts in to the world it ends in, whether
    it returns or throws. *)
Definition preserves (R : World -> World -> Prop) {A : Type} (c : M A)
  : Prop :=
  forall w, R w (snd (c w)).

(** What no call of the hook changes except the one made for it: the mute
    flag by [setIsMuted], the event list by [sendEvent] and the listener,
    the memory by a tool handler. *)
Record page_frame (w w' : World) : Prop := {
  page_muted : isMuted w' = isMuted w;
  page_memory : memoryKv w' = memoryKv w
}.

(** What [connect] leaves alone once it has opened its transport: both
    refs, which connections are closed, which connection owns which
    channel. *)
Record transport_frame (w w' : World) : Prop := {
  frame_pc : peerConnectionRef w' = peerConnectionRef w;
  frame_dc : dataChannelRef w' = dataChannelRef w;
  frame_closed :
    map pc_closed (peerConnections w') = map pc_closed (peerConnections w);
  frame_owner :
    map dc_owner (dataChannels w') = map dc_owner (dataChannels w)
}.

(** ** More of the signal normalizer *)

(** *** Interpolation *)


(** *** Peak mode *)

(** The running peak of bucket [k] after [j] turns of the first loop. *)
Fixpoint bucket_peak (data : list Q) (m : nat) (j k : nat) : Q :=
  match j with
  | O => inject_Z 0
  | S j' =>
      if decide (bucket_of m (length data) j' = k)
      then Qmax (bucket_peak data m j' k) (Qabs (default 0%Q (data !! j')))
      else bucket_peak data m j' k
  end.

Definition peaks (data : list Q) (m : nat) (j : nat)
  : list (JsVal ExactNum) * list (JsVal ExactNum) :=
  (map (fun k => Num (Fin (bucket_peak data m j k))) (seq 0 m),
   map (fun k => Num (Fin (bucket_count data m j k))) (seq 0 m)).

(** *** The cache *)

(** [dataMap.get(data)[m][downsamplePeaks]], if all three are there. *)
Definition cached {F : Type} (dataMap : @DataMap F) (dataId m : nat)
    (downsamplePeaks : bool) : option (list (JsVal F)) :=
  match dataMap !! dataId with
  | Some cache =>
      match cache !! m with
      | Some entry => entry !! downsamplePeaks
      | None => None
      end
  | None => None
  end.

(** *** The bars, in exact arithmetic *)









(** A CSS color in hexadecimal notation: [#] and 3, 4, 6 or 8 hexadecimal
    digits. *)
Definition hex_color (s : string) : bool :=
  match list_ascii_of_string s with
  | "#"%char :: digits =>
      forallb (fun c => bool_decide (is_Some (JSON.hex_value c))) digits
      && bool_decide (length digits ∈ [3; 4; 6; 8]%nat)
  | _ => false
  end.

(** ** More of the session *)

(** *** What connect needs *)

(** The credential answers [connect] cannot do without: a response with a
    status in 200..299 whose body is a JSON object with a [client_secret]
    that is neither null nor missing. *)
Definition credential_suffices (env : ConnectEnv) : bool :=
  match session_fetch env with
  | fetch_response status body =>
      response_ok status
      && match JSON.parse body with
         | Some (VObject fields) =>
             match obj_get fields "client_secret" with
             | VUndefined | VNull => false
             | _ => true
             end
         | _ => false
         end
  | fetch_rejected => false
  end.

(** The negotiation answers it cannot do without: an offer, both
    descriptions accepted, and a response with a status in 200..299. The
    microphone and the state of the data channel are not among them. *)
Definition negotiation_suffices (env : ConnectEnv) : bool :=
  match offer env, negotiation_fetch env with
  | Some _, fetch_response status _ =>
      response_ok status && local_description_ok env
      && remote_description_ok env
  | _, _ => false
  end.

Definition answers_suffice (env : ConnectEnv) : bool :=
  credential_suffices env && negotiation_suffices env.

(** The session's refs and flag agree: the page shows a connection exactly
    when a connection is held, a channel is held exactly when a connection
    is, the held connection exists and is not closed, and the held channel
    is the one that connection created, with the listener attached. *)
Record session_consistent (w : World) : Prop := {
  consistent_flag : isConnected w = true <-> peerConnectionRef w <> None;
  consistent_refs : peerConnectionRef w = None <-> dataChannelRef w = None;
  consistent_connection :
    forall p, peerConnectionRef w = Some p -> is_live w p;
  consistent_channel :
    forall p d, peerConnectionRef w = Some p -> dataChannelRef w = Some d ->
      exists ch, dataChannels w !! d = Some ch /\ dc_owner ch = p /\
                 dc_label ch = "oai-events" /\ dc_listening ch = true
}.

(** The texts sent so far on channel [d]. *)
Definition sent_on (w : World) (d : nat) : list string :=
  match dataChannels w !! d with
  | Some ch => dc_sent ch
  | None => []
  end.

(** The mute flag the page asked for last in a history, [b] if it never
    asked. *)
Definition requested_mute (history : list AsyncAction) (b : bool) : bool :=
  fold_left
    (fun b a => match a with serial (call_setIsMuted b') => b' | _ => b end)
    history b.

(** *** The world a successful connect leaves *)

(** The connection [connect] has created, once negotiated. *)
Definition negotiated_connection (senders : list nat) (offer answer : string)
  : RTCPeerConnection :=
  {| pc_closed := false; pc_ontrack := true; pc_senders := senders;
     pc_localDescription := Some offer; pc_remoteDescription := Some answer |}.

(** Its data channel. *)
Definition events_channel (p : nat) (state : ReadyState) (sent : list string)
  : RTCDataChannel :=
  {| dc_owner := p; dc_label := "oai-events"; dc_readyState := state;
     dc_listening := true; dc_sent := sent |}.

(** [senders] more tracks attached to a connection. *)
Definition with_senders (senders : list nat) (c : RTCPeerConnection)
  : RTCPeerConnection :=
  {| pc_closed := pc_closed c; pc_ontrack := pc_ontrack c;
     pc_senders := pc_senders c ++ senders;
     pc_localDescription := pc_localDescription c;
     pc_remoteDescription := pc_remoteDescription c |}.

(** The world [connect] builds when every answer it needs is favourable. *)
Definition connected_from (initialInstructions : string)
    (tools : option (list Tool)) (env : ConnectEnv) (sdp answer : string)
    (w : World) : World :=
  let p := length (peerConnections w) in
  {| peerConnectionRef := Some p;
     dataChannelRef := Some (length (dataChannels w));
     isConnected := true; isMuted := isMuted w;
     realtimeEvents := realtimeEvents w; memoryKv := memoryKv w;
     peerConnections :=
       peerConnections w
       ++ [negotiated_connection
             (match user_media env with
              | Some stream => seq (length (tracks w)) (length stream)
              | None => []
              end) sdp answer];
     dataChannels :=
       dataChannels w
       ++ [if channel_opens env
           then events_channel p rs_open
                  [default "undefined"
                     (JSON.stringify
                        (session_update initialInstructions tools))]
           else events_channel p rs_connecting []];
     tracks := tracks w ++ default [] (user_media env);
     console :=
       console w
       ++ match user_media env with
          | Some _ => []
          | None => ["Error accessing microphone:"]
          end |}.

(** What leaves the agreement of refs and flag alone: the refs, the flag,
    which connections are closed, and each channel's owner, label and
    listener. *)
Record session_frame (w w' : World) : Prop := {
  session_pc : peerConnectionRef w' = peerConnectionRef w;
  session_dc : dataChannelRef w' = dataChannelRef w;
  session_flag : isConnected w' = isConnected w;
  session_closed : closed_flags w' = closed_flags w;
  session_channels :
    map (fun ch => (dc_owner ch, dc_label ch, dc_listening ch))
      (dataChannels w')
    = map (fun ch => (dc_owner ch, dc_label ch, dc_listening ch))
        (dataChannels w)
}.

(** What [connect] and [disconnect] leave alone on the page: the mute flag,
    the memory and the event list. *)
Record log_frame (w w' : World) : Prop := {
  log_muted : isMuted w' = isMuted w;
  log_memory : memoryKv w' = memoryKv w;
  log_events : realtimeEvents w' = realtimeEvents w
}.

(** *** More scenarios *)

(** Every answer favourable, but the data channel still connecting when the
    negotiation ends. *)
Definition slow_channel_env : ConnectEnv := {|
  session_fetch := session_fetch successful_env;
  user_media := user_media successful_env;
  offer := offer successful_env;
  local_description_ok := true;
  negotiation_fetch := negotiation_fetch successful_env;
  remote_description_ok := true;
  channel_opens := false
|}.

(** Every answer favourable, but the microphone refused. *)
Definition no_microphone_env : ConnectEnv := {|
  session_fetch := session_fetch successful_env;
  user_media := None;
  offer := offer successful_env;
  local_description_ok := true;
  negotiation_fetch := negotiation_fetch successful_env;
  remote_description_ok := true;
  channel_opens := true
|}.

(** *** The older hook and the token route *)

(** The answers the older [connect] cannot do without: an offer, both
    descriptions accepted, and any response at all to the negotiation. *)
Definition legacy_answers_suffice (env : ConnectEnv) : bool :=
  match offer env, negotiation_fetch env with
  | Some _, fetch_response _ _ =>
      local_description_ok env && remote_description_ok env
  | _, _ => false
  end.

(** An upstream answer the route cannot use: no response, a status outside
    200..299, or a body that is not JSON. *)
Definition upstream_unusable (upstream : FetchResult) : bool :=
  match upstream with
  | fetch_rejected => true
  | fetch_response status body =>
      negb (response_ok status)
      || match JSON.parse body with Some _ => false | None => true end
  end.

(** ** The clock *)

(** Two decimal digits. *)
Definition two_digits (n : Z) : string :=
  String (ascii_of_N (48 + Z.to_N (n / 10)))
    (String (ascii_of_N (48 + Z.to_N (n mod 10))) EmptyString).

(** * Lemmas and theorems *)

(** ** Loops that fill an array in index order *)

Section FillLoops.
Context {B : Type}.

(** A loop over [0 .. k-1] whose turn [i] overwrites element [i], possibly
    from the element's initial value, builds the array front to back. *)
Lemma fold_left_fill_prefix (f : list B -> nat -> list B) (g : nat -> B)
    (init : list B) (k : nat) :
  (forall acc i, (i < k)%nat -> acc !! i = init !! i ->
                 f acc i = <[i := g i]> acc) ->
  (k <= length init)%nat ->
  fold_left f (seq 0 k) init = map g (seq 0 k) ++ drop k init.
Proof.
  induction k as [|k IH]; intros Hf Hk.
  - simpl. by rewrite drop_0.
  - rewrite seq_S, fold_left_app, map_app. simpl.
    rewrite IH by (try lia; intros; apply Hf; auto; lia).
    assert (Hlen : length (map g (seq 0 k)) = k)
      by (by rewrite length_map, length_seq).
    rewrite Hf; [|lia|].
    2:{ rewrite lookup_app_r by lia. rewrite Hlen, Nat.sub_diag.
        by rewrite lookup_drop, Nat.add_0_r. }
    destruct (drop k init) as [|x rest] eqn:Hd.
    { apply (f_equal length) in Hd. rewrite length_drop in Hd.
      simpl in Hd. lia. }
    rewrite insert_app_r_alt by lia.
    rewrite Hlen, Nat.sub_diag. simpl.
    rewrite <- app_assoc. simpl. do 2 f_equal.
    replace (S k) with (k + 1)%nat by lia.
    rewrite <- (drop_drop init 1 k), Hd. simpl. by rewrite drop_0.
Qed.

Lemma fold_left_fill (f : list B -> nat -> list B) (g : nat -> B)
    (init : list B) :
  (forall acc i, (i < length init)%nat -> acc !! i = init !! i ->
                 f acc i = <[i := g i]> acc) ->
  fold_left f (seq 0 (length init)) init = map g (seq 0 (length init)).
Proof.
  intros Hf. rewrite (fold_left_fill_prefix f g) by (auto; lia).
  by rewrite drop_all, app_nil_r.
Qed.

Lemma lookup_map_seq (g : nat -> B) (n i : nat) :
  (i < n)%nat -> map g (seq 0 n) !! i = Some (g i).
Proof.
  intros Hi. change (map g (seq 0 n)) with (g <$> seq 0 n).
  rewrite list_lookup_fmap, lookup_seq_lt by done. done.
Qed.

End FillLoops.

(** ** The normalizer's loops, in closed form (any number system) *)

Section NormalizerLoops.
Context {F : Type} `{JsNumber F}.

Lemma normalizeFrequencyData_map (data : list F) :
  normalizeFrequencyData data
  = map (fun x => num_f32 (normalizeSample x)) data.
Proof.
  unfold normalizeFrequencyData.
  set (init := replicate (length data) (num_f32 num_zero)).
  assert (Hlen : length init = length data) by apply length_replicate.
  rewrite <- Hlen.
  rewrite (fold_left_fill _
             (fun i => match data !! i with
                       | Some x => num_f32 (normalizeSample x)
                       | None => num_f32 num_zero
                       end)).
  - apply list_eq. intros i. rewrite Hlen.
    change (map ?f data) with (f <$> data). rewrite !list_lookup_fmap.
    destruct (data !! i) as [x|] eqn:Hx.
    + rewrite lookup_seq_lt by (by eapply lookup_lt_Some).
      simpl. by rewrite Hx.
    + rewrite lookup_seq_ge by (by apply lookup_ge_None_1). done.
  - intros acc i Hi _. rewrite Hlen in Hi.
    destruct (lookup_lt_is_Some_2 data i Hi) as [x Hx]. by rewrite Hx.
Qed.

Lemma upsample_map (data : list F) (m : nat) :
  upsample data m = map (interpolate_at data m (length data)) (seq 0 m).
Proof.
  unfold upsample.
  pose proof (fold_left_fill
                (fun result i =>
                   <[i := interpolate_at data m (length data) i]> result)
                (interpolate_at data m (length data))
                (replicate m Undefined)) as Hfill.
  rewrite length_replicate in Hfill. by apply Hfill.
Qed.

Lemma divide_by_count_map (result count : list (JsVal F)) :
  divide_by_count result count
  = map (fun i =>
           Num (num_div (ToNumber (default Undefined (result !! i)))
                        (ToNumber (default Undefined (count !! i)))))
        (seq 0 (length result)).
Proof.
  unfold divide_by_count. apply fold_left_fill.
  intros acc i _ Hacc. by rewrite Hacc.
Qed.

Lemma length_divide_by_count (result count : list (JsVal F)) :
  length (divide_by_count result count) = length result.
Proof. by rewrite divide_by_count_map, length_map, length_seq. Qed.

Lemma length_upsample (data : list F) (m : nat) :
  length (upsample data m) = m.
Proof. by rewrite upsample_map, length_map, length_seq. Qed.

End NormalizerLoops.

(** ** Exact arithmetic: facts about the rational instance *)

Section ExactFacts.
Local Open Scope Q_scope.


Lemma Qmin_cases (x y : Q) :
  (x <= y /\ Qmin x y = x) \/ (y < x /\ Qmin x y = y).
Proof.
  unfold Qmin. destruct (Qle_bool x y) eqn:E.
  - left. by apply Qle_bool_iff in E.
  - right. split; [|done]. apply Qnot_le_lt. intros Hle.
    apply Qle_bool_iff in Hle. congruence.
Qed.

Lemma normalizeSample_exact (x : Q) :
  normalizeSample (Fin x) = Fin (sampleQ x).
Proof. reflexivity. Qed.







End ExactFacts.

(** ** Amplitude normalization *)

Section AmplitudeNormalization.
Local Open Scope Q_scope.



(** The same loop on binary64 samples, stored as binary32: the clamps are
    exact, silence (-Infinity) gives 0, and a NaN sample stays NaN. *)
Example normalizeFrequencyData_binary64 :
  normalizeFrequencyData
    [-120; -100; -65; -30; 0; neg_infinity; infinity; nan]%float
  = [0; 0; 0.25; 1; 1; 0; 1; nan]%float.
Proof. vm_compute. reflexivity. Qed.

End AmplitudeNormalization.

(** ** Amplitude normalization on binary64: the clamps *)

Section Binary64Clamps.

Lemma minDb_binary64 :
  Prim2SF (@minDb float _) = S754_finite true 7036874417766400 (-46).
Proof. vm_compute. reflexivity. Qed.

Lemma maxDb_binary64 :
  Prim2SF (@maxDb float _) = S754_finite true 8444249301319680 (-48).
Proof. vm_compute. reflexivity. Qed.

Ltac compare_cases :=
  repeat match goal with
         | |- context [Z.compare ?a ?b] =>
             destruct (Z.compare_spec a b); try lia; subst
         end.

(** A float that compares at or below (above) another is not NaN. *)
Lemma leb_not_nan_l (x y : float) :
  PrimFloat.leb x y = true -> PrimFloat.is_nan x = false.
Proof.
  rewrite FloatAxioms.leb_spec. unfold PrimFloat.is_nan.
  rewrite FloatAxioms.eqb_spec. unfold SFleb, SFeqb.
  destruct (Prim2SF x) as [s|s| |s m e]; cbn [SFcompare negb]; try done.
  - by destruct s.
  - intros _.
    destruct s; rewrite Z.compare_refl; rewrite ?Pos.compare_cont_refl; done.
Qed.

Lemma leb_not_nan_r (x y : float) :
  PrimFloat.leb x y = true -> PrimFloat.is_nan y = false.
Proof.
  rewrite FloatAxioms.leb_spec. unfold PrimFloat.is_nan.
  rewrite FloatAxioms.eqb_spec. unfold SFleb, SFeqb.
  destruct (Prim2SF y) as [s|s| |s m e]; cbn [SFcompare negb]; try done.
  - by destruct s.
  - by destruct (Prim2SF x) as [[]|[]| |[]].
  - intros _.
    destruct s; rewrite Z.compare_refl; rewrite ?Pos.compare_cont_refl; done.
Qed.

(** Two negative bounds with [hi] above [lo] by its exponent: what is at or
    below [lo] is below [hi], and not above [lo]. *)
Lemma spec_below_floor (px : spec_float) (lo hi : positive) (elo ehi : Z) :
  (ehi < elo)%Z ->
  SFleb px (S754_finite true lo elo) = true ->
  SFltb (S754_finite true hi ehi) px = false /\
  SFltb px (S754_finite true hi ehi) = true /\
  SFltb (S754_finite true lo elo) px = false.
Proof.
  intros He. unfold SFleb, SFltb.
  destruct px as [s|s| |s m e]; cbn [SFcompare].
  - discriminate.
  - destruct s; [intros _; repeat split|discriminate].
  - discriminate.
  - destruct s; [|discriminate].
    pose proof (Pos.compare_antisym m lo) as Hanti.
    unfold Pos.compare in Hanti. rewrite Hanti. clear Hanti.
    compare_cases.
    destruct (Pos.compare_cont Eq m lo); cbn [CompOpp].
    + intros _; repeat split.
    + discriminate.
    + intros _; repeat split.
Qed.

(** What is at or above a negative bound is above it or is the bound. *)
Lemma spec_above_ceiling (px : spec_float) (hi : positive) (ehi : Z) :
  SFleb (S754_finite true hi ehi) px = true ->
  SFltb (S754_finite true hi ehi) px = true \/ px = S754_finite true hi ehi.
Proof.
  unfold SFleb, SFltb.
  destruct px as [s|s| |s m e]; cbn [SFcompare].
  - by left.
  - destruct s; [discriminate|by left].
  - discriminate.
  - destruct s; [|by left].
    compare_cases; try (by left).
    pose proof (Pos.compare_eq hi m) as Heq. unfold Pos.compare in Heq.
    destruct (Pos.compare_cont Eq hi m); cbn [CompOpp].
    + intros _. right. by rewrite Heq.
    + discriminate.
    + by left.
Qed.

Lemma below_floor (x : float) :
  PrimFloat.leb x minDb = true ->
  PrimFloat.ltb maxDb x = false /\
  PrimFloat.ltb x maxDb = true /\
  PrimFloat.ltb minDb x = false.
Proof.
  rewrite FloatAxioms.leb_spec, !FloatAxioms.ltb_spec.
  rewrite minDb_binary64, maxDb_binary64. by apply spec_below_floor.
Qed.

Lemma above_ceiling (x : float) :
  PrimFloat.leb maxDb x = true -> PrimFloat.ltb maxDb x = true \/ x = maxDb.
Proof.
  rewrite FloatAxioms.leb_spec, FloatAxioms.ltb_spec, maxDb_binary64.
  intros Hx. destruct (spec_above_ceiling _ _ _ Hx) as [Hlt|Heq]; [by left|].
  right. apply Prim2SF_inj. by rewrite Heq, maxDb_binary64.
Qed.

Lemma min_right (a x : float) :
  PrimFloat.is_nan a = false -> PrimFloat.is_nan x = false ->
  PrimFloat.ltb a x = false -> PrimFloat.ltb x a = true ->
  Binary64.min a x = x.
Proof. intros Ha Hx H1 H2. unfold Binary64.min. by rewrite Ha, Hx, H1, H2. Qed.

Lemma min_left (a x : float) :
  PrimFloat.is_nan a = false -> PrimFloat.is_nan x = false ->
  PrimFloat.ltb a x = true -> Binary64.min a x = a.
Proof. intros Ha Hx H1. unfold Binary64.min. by rewrite Ha, Hx, H1. Qed.

Lemma max_left (a x : float) :
  PrimFloat.is_nan a = false -> PrimFloat.is_nan x = false ->
  PrimFloat.ltb a x = false -> Binary64.is_neg_zero a = false ->
  Binary64.max a x = a.
Proof.
  intros Ha Hx H1 Hz. unfold Binary64.max. rewrite Ha, Hx, H1, Hz.
  cbn [orb]. by destruct (PrimFloat.ltb x a).
Qed.

Lemma normalizeSample_binary64_unfold (x : float) :
  normalizeSample x
  = PrimFloat.mul
      (PrimFloat.div
         (PrimFloat.sub (Binary64.max minDb (Binary64.min maxDb x)) minDb)
         (PrimFloat.sub maxDb minDb))
      (PrimFloat.div
         (PrimFloat.sub (Binary64.max minDb (Binary64.min maxDb x)) minDb)
         (PrimFloat.sub maxDb minDb)).
Proof. reflexivity. Qed.

(** Every binary64 sample at or below -100, -Infinity included, normalizes
    to 0. *)
Lemma normalizeSample_binary64_floor (x : float) :
  PrimFloat.leb x minDb = true -> normalizeSample x = PrimFloat.zero.
Proof.
  intros Hx. destruct (below_floor x Hx) as (H1 & H2 & H3).
  pose proof (leb_not_nan_l _ _ Hx) as Hnan.
  rewrite normalizeSample_binary64_unfold.
  rewrite (min_right maxDb x);
    [|vm_compute; reflexivity|exact Hnan|exact H1|exact H2].
  rewrite (max_left minDb x);
    [|vm_compute; reflexivity|exact Hnan|exact H3|vm_compute; reflexivity].
  vm_compute. reflexivity.
Qed.

(** Every binary64 sample at or above -30, +Infinity included, normalizes
    to 1. *)
Lemma normalizeSample_binary64_ceiling (x : float) :
  PrimFloat.leb maxDb x = true -> normalizeSample x = PrimFloat.one.
Proof.
  intros Hx. pose proof (leb_not_nan_r _ _ Hx) as Hnan.
  rewrite normalizeSample_binary64_unfold.
  destruct (above_ceiling x Hx) as [Hlt| ->].
  - rewrite (min_left maxDb x);
      [|vm_compute; reflexivity|exact Hnan|exact Hlt].
    vm_compute. reflexivity.
  - vm_compute. reflexivity.
Qed.

(** The clamps of [normalizeFrequencyData] on the numbers the browser
    computes with: whatever the buffer, a sample at or below -100 is stored
    as 0 and a sample at or above -30 as 1. *)
Theorem normalizeFrequencyData_binary64_clamps
    (data : list float) (i : nat) (x : float) :
  data !! i = Some x ->
  (PrimFloat.leb x minDb = true ->
   normalizeFrequencyData data !! i = Some PrimFloat.zero) /\
  (PrimFloat.leb maxDb x = true ->
   normalizeFrequencyData data !! i = Some PrimFloat.one).
Proof.
  intros Hx. rewrite normalizeFrequencyData_map.
  change (map ?f data) with (f <$> data). rewrite list_lookup_fmap, Hx.
  cbn [fmap option_fmap option_map].
  split; intros Hclamp.
  - rewrite (normalizeSample_binary64_floor x Hclamp).
    f_equal; vm_compute; reflexivity.
  - rewrite (normalizeSample_binary64_ceiling x Hclamp).
    f_equal; vm_compute; reflexivity.
Qed.

Lemma normalizeFrequencyData_binary64_clamps_witness :
  normalizeFrequencyData [neg_infinity; (-65)%float] !! 0%nat
  = Some PrimFloat.zero.
Proof.
  apply (normalizeFrequencyData_binary64_clamps
           [neg_infinity; (-65)%float] 0 neg_infinity eq_refl).
  vm_compute. reflexivity.
Defined.

End Binary64Clamps.

(** ** Exact arithmetic: indices, floors and array reads *)

Section ExactIndex.
Local Open Scope Q_scope.




Lemma Qeq_bool_false (x y : Q) : ~ x == y -> Qeq_bool x y = false.
Proof.
  intros Hne. destruct (Qeq_bool x y) eqn:E; [|done].
  by apply Qeq_bool_eq in E.
Qed.


Lemma inject_Z_of_nat_lt (a b : nat) :
  (a < b)%nat -> inject_Z (Z.of_nat a) < inject_Z (Z.of_nat b).
Proof. intros. rewrite <- Zlt_Qlt. lia. Qed.

Lemma inject_Z_of_nat_le (a b : nat) :
  (a <= b)%nat -> inject_Z (Z.of_nat a) <= inject_Z (Z.of_nat b).
Proof. intros. rewrite <- Zle_Qle. lia. Qed.


End ExactIndex.

(** ** Upsampling (the interpolation branch of normalizeArray) *)

Section Upsampling.
Local Open Scope Q_scope.





End Upsampling.

(** ** Downsampling (the bucket branch of normalizeArray) *)

Section BucketArithmetic.



Local Open Scope Q_scope.

Lemma bucketIndex_exact (i m n : nat) :
  (0 < n)%nat ->
  bucketIndex (F := ExactNum) i m n
  = Fin (inject_Z (Z.of_nat (bucket_of m n i))).
Proof.
  intros Hn. unfold bucketIndex, num_of_nat.
  cbn [num_div num_mul num_of_Z Math_floor exact_number exact_lift2
       exact_lift1 exact_div].
  assert (Hn0 : ~ inject_Z (Z.of_nat n) == 0).
  { intros E. pose proof (inject_Z_of_nat_lt 0 n Hn) as Hlt.
    change (inject_Z (Z.of_nat 0)) with 0 in Hlt. lra. }
  rewrite (Qeq_bool_false _ _ Hn0). cbn [exact_lift1 exact_lift2].
  do 2 f_equal. unfold bucket_of.
  rewrite Nat2Z.inj_div, Nat2Z.inj_mul, Zdiv_Qdiv.
  apply Qfloor_comp. rewrite inject_Z_mult. field. exact Hn0.
Qed.


End BucketArithmetic.

Section ExactArrays.



End ExactArrays.

Section DownsamplingExact.
Local Open Scope Q_scope.
Variable data : list Q.
Variable m : nat.
Let n : nat := length data.



End DownsamplingExact.

Section AveragingFacts.
Local Open Scope Q_scope.




Variable data : list Q.
Variable m : nat.





End AveragingFacts.

Section AveragingMode.
Local Open Scope Q_scope.




Example normalizeArray_average_exact_values :
  (normalizeArray ∅ 0%nat (map Fin [1; 2; 3; -4; 5; 6]) 3 false false).1
  = [Num (Fin (3 # 2)); Num (Fin (7 # 2)); Num (Fin (11 # 2))].
Proof. reflexivity. Qed.

End AveragingMode.


(** ** Reasoning about calls: what a computation leaves alone *)

Section Preservation.
Variable R : World -> World -> Prop.
Hypothesis R_refl : forall w, R w w.
Hypothesis R_trans : forall w1 w2 w3, R w1 w2 -> R w2 w3 -> R w1 w3.

Lemma preserves_ret {A : Type} (a : A) : preserves R (ret a).
Proof. intros w. apply R_refl. Qed.

Lemma preserves_throw {A : Type} (e : Exn) : preserves R (@throw A e).
Proof. intros w. apply R_refl. Qed.

Lemma preserves_get_world : preserves R get_world.
Proof. intros w. apply R_refl. Qed.

Lemma preserves_modify (f : World -> World) :
  (forall w, R w (f w)) -> preserves R (modify f).
Proof. intros Hf w. apply Hf. Qed.

Lemma preserves_bind {A B : Type} (c : M A) (k : A -> M B) :
  preserves R c -> (forall a, preserves R (k a)) -> preserves R (bind c k).
Proof.
  intros Hc Hk w. unfold bind. specialize (Hc w).
  destruct (c w) as [[a|e] w']; simpl in *; [|done].
  eapply R_trans; [exact Hc|apply Hk].
Qed.

Lemma preserves_try_catch {A : Type} (c : M A) (h : Exn -> M A) :
  preserves R c -> (forall e, preserves R (h e)) -> preserves R (try_catch c h).
Proof.
  intros Hc Hh w. unfold try_catch. specialize (Hc w).
  destruct (c w) as [[a|e] w']; simpl in *; [done|].
  eapply R_trans; [exact Hc|apply Hh].
Qed.

End Preservation.

Create HintDb frames.
#[export] Hint Resolve preserves_ret preserves_throw preserves_get_world
  preserves_bind preserves_try_catch preserves_modify : frames.

(** *** Two frames *)

Lemma page_frame_refl (w : World) : page_frame w w.
Proof. by split. Qed.

Lemma page_frame_trans (w1 w2 w3 : World) :
  page_frame w1 w2 -> page_frame w2 w3 -> page_frame w1 w3.
Proof. intros [] []. split; congruence. Qed.

Lemma transport_frame_refl (w : World) : transport_frame w w.
Proof. by split. Qed.

Lemma transport_frame_trans (w1 w2 w3 : World) :
  transport_frame w1 w2 -> transport_frame w2 w3 -> transport_frame w1 w3.
Proof. intros [] []. split; congruence. Qed.

Lemma map_alter_same {A B : Type} (g : A -> B) (f : A -> A) (i : nat)
    (l : list A) :
  (forall x, g (f x) = g x) -> map g (alter f i l) = map g l.
Proof.
  intros Hf. revert i. induction l as [|x l IH]; intros [|i]; simpl; try done.
  - by rewrite Hf.
  - f_equal. apply IH.
Qed.

#[export] Hint Resolve page_frame_refl transport_frame_refl : frames.

Section HookFrames.
Variable initialInstructions : string.
Variable tools : option (list Tool).

Lemma add_tracks_page (p : nat) (stream : list MediaStreamTrack) (w : World) :
  page_frame w (fold_left (add_track p) stream w).
Proof.
  revert w. induction stream as [|t stream IH]; intros w; simpl.
  - apply page_frame_refl.
  - eapply page_frame_trans; [|apply IH]. by split.
Qed.

Lemma add_tracks_transport (p : nat) (stream : list MediaStreamTrack)
    (w : World) :
  transport_frame w (fold_left (add_track p) stream w).
Proof.
  revert w. induction stream as [|t stream IH]; intros w; simpl.
  - apply transport_frame_refl.
  - eapply transport_frame_trans; [|apply IH].
    split; try done. simpl. by apply map_alter_same.
Qed.

Lemma update_connection_page (p : nat) f : preserves page_frame (update_connection p f).
Proof. intros w. by split. Qed.

Lemma update_connection_transport (p : nat) f :
  (forall c, pc_closed (f c) = pc_closed c) ->
  preserves transport_frame (update_connection p f).
Proof. intros Hf w. split; try done. simpl. by apply map_alter_same. Qed.

Lemma update_channel_page (d : nat) f : preserves page_frame (update_channel d f).
Proof. intros w. by split. Qed.

Lemma update_channel_transport (d : nat) f :
  (forall ch, dc_owner (f ch) = dc_owner ch) ->
  preserves transport_frame (update_channel d f).
Proof. intros Hf w. split; try done. simpl. by apply map_alter_same. Qed.

Lemma fetch_ok_unchanged (r : FetchResult) (failure : string) (w : World) :
  snd (fetch_ok r failure w) = w.
Proof.
  destruct r as [|status body]; simpl; [done|].
  by destruct (response_ok status).
Qed.

Lemma client_secret_value_unchanged (data : Value) (w : World) :
  snd (client_secret_value data w) = w.
Proof.
  destruct data as [| | | | | |fields]; simpl; try done.
  by destruct (obj_get fields "client_secret").
Qed.

(** Asking for the credential changes nothing, whatever the answer. *)
Lemma acquire_credential_unchanged (env : ConnectEnv) (w : World) :
  snd (acquire_credential env w) = w.
Proof.
  unfold acquire_credential, bind.
  pose proof (fetch_ok_unchanged (session_fetch env)
                "Failed to get session token" w) as Hf.
  destruct (fetch_ok _ _ w) as [[body|e] w1]; simpl in Hf; subst; [|done].
  destruct (JSON.parse body) as [data|]; simpl; [|done].
  apply client_secret_value_unchanged.
Qed.

Lemma attach_microphone_page (env : ConnectEnv) (p : nat) :
  preserves page_frame (attach_microphone env p).
Proof.
  unfold attach_microphone.
  apply (preserves_try_catch _ page_frame_trans).
  - destruct (user_media env); auto with frames.
    apply preserves_modify. intros w. apply add_tracks_page.
  - intros _. apply preserves_modify. intros w. by split.
Qed.

Lemma attach_microphone_transport (env : ConnectEnv) (p : nat) :
  preserves transport_frame (attach_microphone env p).
Proof.
  unfold attach_microphone.
  apply (preserves_try_catch _ transport_frame_trans).
  - destruct (user_media env); auto with frames.
    apply preserves_modify. intros w. apply add_tracks_transport.
  - intros _. apply preserves_modify. intros w. by split.
Qed.

Lemma attach_microphone_returns (env : ConnectEnv) (p : nat) (w : World) :
  fst (attach_microphone env p w) = Returned tt.
Proof.
  unfold attach_microphone, try_catch. by destruct (user_media env).
Qed.

End HookFrames.

(** One step of a frame proof: split a sequence, a [try], a branch; close a
    leaf. *)
Ltac frame_step R_refl R_trans :=
  first
    [ apply (preserves_ret _ R_refl)
    | apply (preserves_throw _ R_refl)
    | apply (preserves_get_world _ R_refl)
    | apply (preserves_bind _ R_trans); [|intros ?]
    | apply (preserves_try_catch _ R_trans); [|intros ?]
    | match goal with
      | |- preserves _ (match ?x with _ => _ end) => destruct x
      end
    | apply preserves_modify; intros ?; split; simpl; try done;
      by apply map_alter_same ].

Section NegotiationFrames.
Variable initialInstructions : string.
Variable tools : option (list Tool).

Lemma negotiate_page (env : ConnectEnv) (key : Value) (p d : nat) :
  preserves page_frame (negotiate initialInstructions tools env key p d).
Proof.
  unfold negotiate, fetch_ok, update_connection, update_channel.
  repeat frame_step page_frame_refl page_frame_trans.
Qed.

Lemma negotiate_transport (env : ConnectEnv) (key : Value) (p d : nat) :
  preserves transport_frame (negotiate initialInstructions tools env key p d).
Proof.
  unfold negotiate, fetch_ok, update_connection, update_channel.
  repeat frame_step transport_frame_refl transport_frame_trans.
Qed.

Lemma negotiate_connected (env : ConnectEnv) (key : Value) (p d : nat)
    (w : World) :
  fst (negotiate initialInstructions tools env key p d w) = Returned tt ->
  isConnected (snd (negotiate initialInstructions tools env key p d w)) = true.
Proof.
  unfold negotiate, bind, fetch_ok.
  destruct (offer env); simpl; [|done].
  destruct (local_description_ok env); simpl; [|done].
  destruct (negotiation_fetch env) as [|status body]; simpl; [done|].
  destruct (response_ok status); simpl; [|done].
  destruct (remote_description_ok env); simpl; [|done].
  destruct (channel_opens env); simpl;
    repeat match goal with
           | |- context [match ?x with _ => _ end] => destruct x; simpl
           end; done.
Qed.

End NegotiationFrames.

(** ** Live transports *)

Section LiveTransports.

Lemma count_none_live (flags : list bool) :
  (forall i, flags !! i <> Some false) ->
  length (filter (fun b => b = false) flags) = 0%nat.
Proof.
  induction flags as [|b flags IH]; intros Hnone; [done|].
  rewrite filter_cons. destruct (decide (b = false)) as [->|_].
  - exfalso. apply (Hnone 0%nat). reflexivity.
  - apply IH. intros i Hi. apply (Hnone (S i)). exact Hi.
Qed.

Lemma count_one_live (flags : list bool) (p : nat) :
  (forall i, flags !! i = Some false <-> p = i) ->
  length (filter (fun b => b = false) flags) = 1%nat.
Proof.
  revert p. induction flags as [|b flags IH]; intros p Hone.
  - pose proof (proj2 (Hone p) eq_refl) as Hnil. done.
  - rewrite filter_cons. destruct (decide (b = false)) as [->|Hb].
    + simpl. f_equal. apply count_none_live. intros i Hi.
      assert (p = 0%nat) by (by apply Hone).
      assert (p = S i) by (by apply Hone). lia.
    + destruct p as [|p].
      * pose proof (proj2 (Hone 0%nat) eq_refl) as Hhead.
        simpl in Hhead. congruence.
      * apply (IH p). intros i. specialize (Hone (S i)). simpl in Hone.
        rewrite Hone. lia.
Qed.

(** Under the invariant there is one live transport when a handle is
    held and none otherwise. *)
Lemma live_transports_held (w : World) :
  transport_invariant w ->
  live_transports w
  = match peerConnectionRef w with Some _ => 1%nat | None => 0%nat end.
Proof.
  intros Hinv. unfold live_transports.
  destruct (peerConnectionRef w) as [p|] eqn:Href.
  - apply (count_one_live _ p). intros i. rewrite (Hinv i). split; congruence.
  - apply count_none_live. intros i Hi. apply Hinv in Hi. congruence.
Qed.

Lemma transport_invariant_frame (w w' : World) :
  closed_flags w' = closed_flags w ->
  peerConnectionRef w' = peerConnectionRef w ->
  transport_invariant w -> transport_invariant w'.
Proof.
  intros Hc Hr Hinv i. unfold is_live. rewrite Hc, Hr. apply Hinv.
Qed.

Lemma transport_invariant_initial (today : string) :
  transport_invariant (initial_world today).
Proof. intros i. unfold is_live. simpl. split; intros; done. Qed.

(** [disconnect] closes the transport that was held, and none is live
    afterwards. *)
Lemma disconnect_invariant (w : World) :
  transport_invariant w -> transport_invariant (disconnect w).
Proof.
  intros Hinv i. unfold is_live, closed_flags, disconnect.
  destruct (dataChannelRef w) as [d|];
    (destruct (peerConnectionRef w) as [p|] eqn:Href; simpl; rewrite ?Href;
     simpl; (split; [|done]); intros Hlive; exfalso;
     change (map pc_closed ?l) with (pc_closed <$> l) in Hlive;
     rewrite list_lookup_fmap in Hlive;
     [ destruct (decide (p = i)) as [->|Hne];
       [ rewrite list_lookup_alter_eq in Hlive;
         destruct (peerConnections w !! i); simpl in Hlive; congruence
       | rewrite list_lookup_alter_ne in Hlive by done;
         rewrite <- list_lookup_fmap in Hlive;
         apply Hinv in Hlive; congruence ]
     | rewrite <- list_lookup_fmap in Hlive;
       apply Hinv in Hlive; congruence ]).
Qed.

Lemma disconnect_releases (w : World) :
  peerConnectionRef (disconnect w) = None /\
  dataChannelRef (disconnect w) = None /\
  isConnected (disconnect w) = false.
Proof. done. Qed.

End LiveTransports.

(** ** connect and the transports *)

Section ConnectTransports.
Variable initialInstructions : string.
Variable tools : option (list Tool).

Lemma open_transport_result (w : World) :
  exists w1,
    open_transport w
    = (Returned (length (peerConnections w), length (dataChannels w)), w1) /\
    closed_flags w1 = closed_flags w ++ [false] /\
    peerConnectionRef w1 = Some (length (peerConnections w)) /\
    dataChannelRef w1 = Some (length (dataChannels w)) /\
    page_frame w w1.
Proof.
  unfold open_transport, bind, get_world, modify, update_connection,
    update_channel, ret. cbn [fst snd].
  eexists. split; [reflexivity|]. unfold closed_flags. simpl.
  split; [|by repeat split].
  rewrite map_alter_same by done. by rewrite map_app.
Qed.

Lemma invariant_after_open (w w' : World) :
  transport_invariant w -> peerConnectionRef w = None ->
  closed_flags w' = closed_flags w ++ [false] ->
  peerConnectionRef w' = Some (length (peerConnections w)) ->
  transport_invariant w'.
Proof.
  intros Hinv Hnone Hflags Href i. unfold is_live. rewrite Hflags, Href.
  assert (Hlen : length (closed_flags w) = length (peerConnections w))
    by apply length_map.
  destruct (decide (i < length (peerConnections w))%nat) as [Hlt|Hge].
  - rewrite lookup_app_l by lia. split.
    + intros Hlive. apply Hinv in Hlive. congruence.
    + intros [= Heq]. lia.
  - rewrite lookup_app_r by lia. rewrite Hlen.
    destruct (decide (i = length (peerConnections w))) as [->|Hne].
    + by rewrite Nat.sub_diag.
    + split; [|intros [= Heq]; lia].
      destruct (i - length (peerConnections w))%nat eqn:E; [lia|done].
Qed.

(** What the [try] block of [connect] does to the transports when no
    handle is held: nothing if the credential fails, one new live
    connection held in [peerConnectionRef] otherwise. *)
Lemma connect_body_transports (env : ConnectEnv) (w : World) :
  let w' := snd (connect_body initialInstructions tools env w) in
  (w' = w /\
   exists e, connect_body initialInstructions tools env w = (Thrown e, w)) \/
  (closed_flags w' = closed_flags w ++ [false] /\
   peerConnectionRef w' = Some (length (peerConnections w)) /\
   dataChannelRef w' = Some (length (dataChannels w))).
Proof.
  unfold connect_body, bind. cbv zeta.
  pose proof (acquire_credential_unchanged env w) as Hacq.
  destruct (acquire_credential env w) as [[key|e] w0]; simpl in Hacq; subst w0.
  2:{ left. split; [done|]. by exists e. }
  right.
  destruct (open_transport_result w) as (w1 & -> & Hflags & Href & Hdc & _).
  cbn [fst snd].
  pose proof (attach_microphone_transport env (length (peerConnections w)) w1)
    as Hmic.
  pose proof (attach_microphone_returns env (length (peerConnections w)) w1)
    as Hret.
  destruct (attach_microphone env (length (peerConnections w)) w1)
    as [r2 w2]. simpl in Hmic, Hret. subst r2.
  pose proof (negotiate_transport initialInstructions tools env key
                (length (peerConnections w)) (length (dataChannels w)) w2)
    as Hneg.
  destruct Hmic as [Hp2 Hd2 Hc2 _]. destruct Hneg as [Hp3 Hd3 Hc3 _].
  unfold closed_flags in *.
  repeat split; congruence.
Qed.

Lemma connect_invariant (env : ConnectEnv) (w : World) :
  transport_invariant w ->
  transport_invariant (snd (connect initialInstructions tools env w)).
Proof.
  intros Hinv. unfold connect, connect_resume.
  destruct (peerConnectionRef w) as [p|] eqn:Href; [done|].
  unfold try_catch.
  pose proof (connect_body_transports env w) as Hbody. cbv zeta in Hbody.
  assert (Hinv' : transport_invariant
                    (snd (connect_body initialInstructions tools env w))).
  { destruct Hbody as [[-> _]|(Hflags & Hp & _)]; [done|].
    by eapply invariant_after_open. }
  destruct (connect_body initialInstructions tools env w) as [[[]|e] w'];
    [done|].
  simpl in *. apply disconnect_invariant.
  by eapply transport_invariant_frame; [..|exact Hinv'].
Qed.

(** [connect] never throws: whatever fails inside is caught. *)
Lemma connect_returns (env : ConnectEnv) (w : World) :
  fst (connect initialInstructions tools env w) = Returned tt.
Proof.
  unfold connect, connect_resume. destruct (peerConnectionRef w); [done|].
  unfold try_catch.
  by destruct (connect_body initialInstructions tools env w) as [[[]|e] w'].
Qed.

Lemma disconnect_page (w : World) : page_frame w (disconnect w).
Proof.
  unfold disconnect.
  destruct (dataChannelRef w) as [d|];
    destruct (peerConnectionRef w) as [p|] eqn:Href; simpl; rewrite ?Href;
    by split.
Qed.

Lemma open_transport_page : preserves page_frame open_transport.
Proof.
  intros w. by destruct (open_transport_result w) as (w1 & -> & _ & _ & _ & ?).
Qed.

(** [connect] leaves the mute flag and the memory as they are. *)
Lemma connect_page (env : ConnectEnv) :
  preserves page_frame (connect initialInstructions tools env).
Proof.
  intros w. unfold connect, connect_resume.
  destruct (peerConnectionRef w); [apply page_frame_refl|].
  revert w. fold (preserves page_frame
    (try_catch (connect_body initialInstructions tools env)
       (fun _ => let* _ := modify (console_error "Connection error:") in
                 modify disconnect))).
  apply (preserves_try_catch _ page_frame_trans).
  - unfold connect_body.
    apply (preserves_bind _ page_frame_trans).
    { intros w. rewrite acquire_credential_unchanged.
      apply page_frame_refl. }
    intros key. apply (preserves_bind _ page_frame_trans);
      [apply open_transport_page|].
    intros pd. apply (preserves_bind _ page_frame_trans);
      [apply attach_microphone_page|].
    intros _. apply negotiate_page.
  - intros _. apply (preserves_bind _ page_frame_trans).
    + apply preserves_modify. intros w. by split.
    + intros _. apply preserves_modify. apply disconnect_page.
Qed.

End ConnectTransports.

(** ** Everything that can happen to a session *)

Section Reachability.
Variable initialInstructions : string.
Variable tools : option (list Tool).

Lemma sendEvent_transports (ev : Value) (now : string) (w : World) :
  closed_flags (snd (sendEvent ev now w)) = closed_flags w /\
  peerConnectionRef (snd (sendEvent ev now w)) = peerConnectionRef w.
Proof.
  unfold sendEvent. destruct (channel_is_open w); [|done].
  by destruct (dataChannelRef w).
Qed.

Lemma on_message_transports (payload now : string) (w : World) :
  closed_flags (snd (on_message payload now w)) = closed_flags w /\
  peerConnectionRef (snd (on_message payload now w)) = peerConnectionRef w.
Proof. unfold on_message, bind. by destruct (JSON.parse payload). Qed.

Lemma step_invariant (a : Action) (w : World) :
  transport_invariant w ->
  transport_invariant (step initialInstructions tools a w).
Proof.
  intros Hinv. destruct a as [env| |ev now|b|d|d payload now]; simpl.
  - by apply connect_invariant.
  - by apply disconnect_invariant.
  - destruct (sendEvent_transports ev now w) as [Hc Hr].
    by eapply transport_invariant_frame.
  - done.
  - done.
  - unfold deliver. destruct (dataChannels w !! d) as [ch|]; [|done].
    destruct (dc_listening ch && _)%bool; [|done].
    destruct (on_message_transports payload now w) as [Hc Hr].
    by eapply transport_invariant_frame.
Qed.

(** At any time: after any history from the first render, the live
    transports are exactly the one held. *)
Lemma run_invariant (history : list Action) (w : World) :
  transport_invariant w ->
  transport_invariant (run initialInstructions tools history w).
Proof.
  revert w. induction history as [|a history IH]; intros w Hinv; [done|].
  simpl. apply IH. by apply step_invariant.
Qed.

End Reachability.

(** ** The session manager: connect and disconnect *)

Section SessionManager.
Variable initialInstructions : string.
Variable tools : option (list Tool).


(** C5. When the credential fetch answers with a status outside 200..299,
    the rest of [connect] returns with [isConnected] false and both refs
    null, and it has created no peer connection, no data channel and no
    track: there are as many as before. For a call made with no handle held
    and nothing running in between, the peer connections are untouched. *)
Theorem connect_credential_rejected
    (env : ConnectEnv) (w : World) (status : nat) (body : string) :
  session_fetch env = fetch_response status body ->
  response_ok status = false ->
  let w' := snd (connect_resume initialInstructions tools env w) in
  fst (connect_resume initialInstructions tools env w) = Returned tt /\
  isConnected w' = false /\
  peerConnectionRef w' = None /\
  dataChannelRef w' = None /\
  length (peerConnections w') = length (peerConnections w) /\
  length (dataChannels w') = length (dataChannels w) /\
  tracks w' = tracks w /\
  (peerConnectionRef w = None ->
   connect initialInstructions tools env w
   = connect_resume initialInstructions tools env w /\
   peerConnections w' = peerConnections w).
Proof.
  intros Hfetch Hok. cbv zeta.
  unfold connect, connect_resume, try_catch, connect_body, acquire_credential,
    bind, fetch_ok.
  rewrite Hfetch, Hok. cbn [fst snd modify console_error].
  unfold disconnect.
  destruct (dataChannelRef w) as [d|] eqn:Hd;
    destruct (peerConnectionRef w) as [p|] eqn:Href;
    simpl; rewrite ?Hd, ?Href; simpl; rewrite ?Href;
    repeat split; try done; simpl;
    rewrite ?length_map, ?length_alter; done.
Qed.

(** C10. [disconnect] sets both refs to null and [isConnected] to false,
    closing the channel and the connection they pointed to; the mute flag,
    the event list, the memory, the tracks and the console are as before,
    and no connection or channel is added or dropped. A [connect] after it
    starts from the mute flag that was set. *)
Theorem disconnect_keeps_mute (env : ConnectEnv) (w : World) :
  let w' := disconnect w in
  peerConnectionRef w' = None /\
  dataChannelRef w' = None /\
  isConnected w' = false /\
  isMuted w' = isMuted w /\
  realtimeEvents w' = realtimeEvents w /\
  memoryKv w' = memoryKv w /\
  tracks w' = tracks w /\
  console w' = console w /\
  length (peerConnections w') = length (peerConnections w) /\
  length (dataChannels w') = length (dataChannels w) /\
  isMuted (snd (connect initialInstructions tools env w')) = isMuted w.
Proof.
  cbv zeta.
  assert (Hmute : isMuted (disconnect w) = isMuted w)
    by apply disconnect_page.
  repeat split; try done.
  - unfold disconnect.
    by destruct (dataChannelRef w) as [d|];
      destruct (peerConnectionRef w) as [p|] eqn:Href; simpl; rewrite ?Href.
  - unfold disconnect.
    by destruct (dataChannelRef w) as [d|];
      destruct (peerConnectionRef w) as [p|] eqn:Href; simpl; rewrite ?Href.
  - unfold disconnect.
    by destruct (dataChannelRef w) as [d|];
      destruct (peerConnectionRef w) as [p|] eqn:Href; simpl; rewrite ?Href.
  - unfold disconnect.
    by destruct (dataChannelRef w) as [d|];
      destruct (peerConnectionRef w) as [p|] eqn:Href; simpl; rewrite ?Href.
  - unfold disconnect.
    destruct (dataChannelRef w) as [d|];
      destruct (peerConnectionRef w) as [p|] eqn:Href; simpl; rewrite ?Href;
      simpl; by rewrite ?length_alter.
  - unfold disconnect.
    destruct (dataChannelRef w) as [d|];
      destruct (peerConnectionRef w) as [p|] eqn:Href; simpl; rewrite ?Href;
      simpl; by rewrite ?length_map, ?length_alter.
  - rewrite <- Hmute. apply connect_page.
Qed.

End SessionManager.

Section SessionManagerInstances.

Lemma connect_credential_rejected_witness :
  let w := initial_world "2025-01-01" in
  let w' := snd (connect "instructions" page_tools rejected_env w) in
  session_fetch rejected_env
  = fetch_response 500 "Failed to generate session token" /\
  fst (connect "instructions" page_tools rejected_env w) = Returned tt /\
  isConnected w' = false /\
  peerConnectionRef w' = None /\
  peerConnections w' = [].
Proof.
  pose proof (connect_credential_rejected "instructions" page_tools
                rejected_env (initial_world "2025-01-01") 500
                "Failed to generate session token" eq_refl eq_refl) as H.
  cbv zeta in H.
  destruct H as (Hret & Hconn & Hpc & _ & _ & _ & _ & Hcall).
  destruct (Hcall eq_refl) as [Hsame Hpcs].
  cbv zeta. rewrite Hsame. repeat split; assumption.
Defined.


Lemma disconnect_keeps_mute_witness :
  let w := setIsMuted true connected_world in
  isMuted (disconnect w) = true /\
  isMuted (snd (connect "instructions" page_tools successful_env
                  (disconnect w))) = true.
Proof.
  pose proof (disconnect_keeps_mute "instructions" page_tools successful_env
                (setIsMuted true connected_world)) as H.
  cbv zeta in H. split; [apply H|apply H].
Defined.

End SessionManagerInstances.

(** ** The event bus: sendEvent and the message listener *)

Section EventBus.

(** C4 (amended). Whatever the event, [sendEvent] called while the channel
    is not open returns normally and changes nothing: nothing is sent,
    nothing is appended to the event list, and no error is reported. *)
Theorem sendEvent_closed_is_silent (ev : Value) (now : string) (w : World) :
  channel_is_open w = false ->
  sendEvent ev now w = (Returned tt, w).
Proof. intros Hclosed. unfold sendEvent. by rewrite Hclosed. Qed.

Lemma sendEvent_closed_is_silent_witness :
  channel_is_open (disconnect connected_world) = false /\
  sendEvent force_reply "2025-01-01T00:00:01.000Z" (disconnect connected_world)
  = (Returned tt, disconnect connected_world).
Proof.
  split; [reflexivity|].
  apply (sendEvent_closed_is_silent force_reply "2025-01-01T00:00:01.000Z"
           (disconnect connected_world)).
  reflexivity.
Defined.

(** C4 as stated fails: before any connection the Force Reply event is
    dropped, and the caller gets a normal return with nothing logged. *)
Lemma sendEvent_closed_reports_nothing :
  let w := initial_world "2025-01-01" in
  channel_is_open w = false /\
  fst (sendEvent force_reply "2025-01-01T00:00:01.000Z" w) = Returned tt /\
  console (snd (sendEvent force_reply "2025-01-01T00:00:01.000Z" w)) = [] /\
  realtimeEvents (snd (sendEvent force_reply "2025-01-01T00:00:01.000Z" w)) = [].
Proof. by vm_compute. Qed.

(** An open channel, for contrast: the event is sent and recorded. *)
Example sendEvent_open_records :
  let w := snd (sendEvent force_reply "2025-01-01T00:00:01.000Z"
                  connected_world) in
  realtimeEvents w
  = [{| time := "2025-01-01T00:00:01.000Z"; source := client;
        event := force_reply |}] /\
  (dc_sent <$> dataChannels w !! 0%nat)
  = Some [default EmptyString
            (JSON.stringify (session_update "instructions" page_tools));
          default EmptyString (JSON.stringify force_reply)].
Proof. by vm_compute. Qed.

(** C3 (amended). An inbound payload that is not JSON makes the listener
    throw the SyntaxError of [JSON.parse] (it has no handler for it); the
    message is dropped with the world unchanged, and a session that
    receives it goes on from the same world. *)
Theorem on_message_malformed_throws
    (payload now : string) (w : World) (d : nat) :
  JSON.parse payload = None ->
  on_message payload now w = (Thrown SyntaxError, w) /\
  deliver d payload now w = w.
Proof.
  intros Hbad. unfold deliver, on_message, bind. rewrite Hbad. simpl.
  split; [done|]. destruct (dataChannels w !! d) as [ch|]; [|done].
  by destruct (dc_listening ch && _)%bool.
Qed.

Lemma on_message_malformed_throws_witness :
  JSON.parse "not json" = None /\
  on_message "not json" "2025-01-01T00:00:01.000Z" connected_world
  = (Thrown SyntaxError, connected_world) /\
  deliver 0 "not json" "2025-01-01T00:00:01.000Z" connected_world
  = connected_world.
Proof.
  split; [reflexivity|].
  apply (on_message_malformed_throws "not json" "2025-01-01T00:00:01.000Z"
           connected_world 0).
  reflexivity.
Defined.

(** C3 as stated fails: the exception does escape the listener. *)
Lemma on_message_malformed_escapes :
  fst (on_message "{type: session.created" "2025-01-01T00:00:01.000Z"
         connected_world)
  = Thrown SyntaxError.
Proof. by vm_compute. Qed.

End EventBus.

(** ** Tool calls and the mute flag *)

Section ToolDispatch.

(** The listener does the same to the world whatever tools are
    registered: it appends the decoded event and nothing else. *)
Lemma on_message_records_only (payload now : string) (w : World) (ev : Value) :
  JSON.parse payload = Some ev ->
  on_message payload now w
  = (Returned tt,
     setRealtimeEvents
       (fun prev => prev ++ [{| time := now; source := server; event := ev |}])
       w).
Proof. intros Hev. unfold on_message, bind. by rewrite Hev. Qed.

(** C1 (the code falls short). On a connected session with [set_memory]
    registered, the example event decodes, names the registered tool and
    carries the arguments key city, value nyc, so one handler call is
    expected; the listener records the event and runs no handler: the
    memory is as it was, with no city, where one run of the handler would
    have stored nyc. *)
Theorem on_message_runs_no_handler :
  let now := "2025-01-01T00:00:01.000Z" in
  let w := connected_world in
  let w' := snd (on_message set_memory_payload now w) in
  JSON.parse set_memory_payload = Some set_memory_call /\
  expected_tool_calls page_tools set_memory_call
  = [(set_memory, city_arguments)] /\
  on_message set_memory_payload now w
  = (Returned tt,
     setRealtimeEvents
       (fun prev =>
          prev ++ [{| time := now; source := server;
                      event := set_memory_call |}])
       w) /\
  memoryKv w' = memoryKv w /\
  obj_get (memoryKv w') "city" = VUndefined /\
  obj_get (memoryKv (fn set_memory city_arguments w)) "city" = VString "nyc".
Proof. by vm_compute. Qed.

(** C2 (the code falls short). [setIsMuted] writes the flag and nothing
    else, for every world: no track, connection or channel changes. *)
Lemma setIsMuted_flag_only (b : bool) (w : World) :
  isMuted (setIsMuted b w) = b /\
  tracks (setIsMuted b w) = tracks w /\
  peerConnections (setIsMuted b w) = peerConnections w /\
  dataChannels (setIsMuted b w) = dataChannels w.
Proof. done. Qed.

(** On a connected session with the microphone attached, muting leaves
    the one local audio track enabled. *)
Theorem setIsMuted_leaves_track_enabled :
  let w := setIsMuted true connected_world in
  isConnected w = true /\
  isMuted w = true /\
  session_tracks w = [0%nat] /\
  tracks w !! 0%nat = Some {| track_kind := "audio"; track_enabled := true |}.
Proof. by vm_compute. Qed.

End ToolDispatch.

(** ** Calls of connect that overlap *)

Section Overlap.
Variable initialInstructions : string.
Variable tools : option (list Tool).

(** A history without suspended calls is a history of whole calls. *)
Lemma async_run_serial (history : list Action) (w : World) (waiting : nat) :
  async_run initialInstructions tools (map serial history) (w, waiting)
  = (run initialInstructions tools history w, waiting).
Proof.
  revert w. induction history as [|a history IH]; intros w; [done|].
  simpl. apply IH.
Qed.

(** A call whose credential settles before anything else happens is a
    whole call. *)
Lemma async_run_whole_call (env : ConnectEnv) (w : World) :
  async_run initialInstructions tools
    [connect_called; credential_settled env] (w, 0%nat)
  = (snd (connect initialInstructions tools env w), 0%nat).
Proof.
  unfold connect. simpl. by destruct (peerConnectionRef w).
Qed.

End Overlap.


(** * Further properties: session, page, normalizer, bars, server *)

(** ** connect, from the answers it gets *)

Section ConnectOutcome.
Variable initialInstructions : string.
Variable tools : option (list Tool).

Lemma acquire_credential_returns (env : ConnectEnv) (w : World) :
  if credential_suffices env
  then exists key, acquire_credential env w = (Returned key, w)
  else exists e, acquire_credential env w = (Thrown e, w).
Proof.
  unfold acquire_credential, credential_suffices, bind, fetch_ok,
    client_secret_value, throw, ret.
  destruct (session_fetch env) as [|status body]; simpl; [by eexists|].
  destruct (response_ok status); simpl; [|by eexists].
  destruct (JSON.parse body) as [data|]; simpl; [|by eexists].
  destruct data as [| | | | | |fields]; simpl; try (by eexists).
  destruct (obj_get fields "client_secret"); simpl; by eexists.
Qed.

(** The microphone's tracks are appended to the world's, and attached to
    the connection in that order. *)
Lemma add_tracks_world (p : nat) (stream : list MediaStreamTrack) (w : World) :
  fold_left (add_track p) stream w
  = set_peerConnections
      (alter (with_senders (seq (length (tracks w)) (length stream))) p
         (peerConnections w))
      (set_tracks (tracks w ++ stream) w).
Proof.
  revert w. induction stream as [|t stream IH]; intros w.
  - simpl. rewrite app_nil_r. rewrite list_alter_id.
    + by destruct w.
    + intros c. destruct c. unfold with_senders. simpl. by rewrite app_nil_r.
  - simpl. rewrite IH. unfold add_track, set_peerConnections, set_tracks.
    simpl. rewrite <- app_assoc. simpl. f_equal.
    rewrite list_alter_alter_eq. apply list_alter_ext; [|done].
    intros c _. unfold with_senders. simpl. f_equal.
    rewrite <- app_assoc, length_app. simpl.
    by rewrite Nat.add_1_r.
Qed.

Lemma alter_snoc {A : Type} (f : A -> A) (l : list A) (x : A) :
  alter f (length l) (l ++ [x]) = l ++ [f x].
Proof. by rewrite alter_app_r_alt, Nat.sub_diag by lia. Qed.

Lemma lookup_snoc {A : Type} (l : list A) (x : A) :
  (l ++ [x]) !! length l = Some x.
Proof. by apply list_lookup_middle. Qed.

Lemma connect_body_success (env : ConnectEnv) (w : World)
    (sdp answer : string) (status : nat) :
  credential_suffices env = true ->
  offer env = Some sdp -> local_description_ok env = true ->
  negotiation_fetch env = fetch_response status answer ->
  response_ok status = true -> remote_description_ok env = true ->
  connect_body initialInstructions tools env w
  = (Returned tt, connected_from initialInstructions tools env sdp answer w).
Proof.
  intros Hcred Hoffer Hlocal Hfetch Hok Hremote.
  pose proof (acquire_credential_returns env w) as Hacq.
  rewrite Hcred in Hacq. destruct Hacq as [key Hacq].
  unfold connect_body, bind. rewrite Hacq.
  unfold open_transport, attach_microphone, negotiate, try_catch, bind,
    get_world, modify, update_connection, update_channel, ret, throw, fetch_ok.
  cbn [fst snd]. rewrite Hoffer, Hlocal, Hfetch, Hok, Hremote.
  unfold connected_from.
  destruct (user_media env) as [stream|]; cbn -[JSON.stringify].
  - rewrite add_tracks_world. cbn -[JSON.stringify].
    rewrite !alter_snoc. cbn -[JSON.stringify].
    destruct (channel_opens env); cbn -[JSON.stringify].
    + rewrite !alter_snoc, lookup_snoc. cbn -[JSON.stringify].
      rewrite bool_decide_eq_true_2 by done.
      unfold channel_send. cbn -[JSON.stringify].
      rewrite !alter_snoc, ?app_nil_r. reflexivity.
    + rewrite lookup_snoc, ?app_nil_r. cbn -[JSON.stringify]. reflexivity.
  - rewrite !alter_snoc. cbn -[JSON.stringify].
    destruct (channel_opens env); cbn -[JSON.stringify].
    + rewrite !alter_snoc, lookup_snoc. cbn -[JSON.stringify].
      rewrite bool_decide_eq_true_2 by done.
      unfold channel_send. cbn -[JSON.stringify].
      rewrite !alter_snoc, ?app_nil_r. reflexivity.
    + rewrite lookup_snoc, ?app_nil_r. cbn -[JSON.stringify]. reflexivity.
Qed.

Lemma negotiate_failure (env : ConnectEnv) (key : Value) (p d : nat)
    (w : World) :
  negotiation_suffices env = false ->
  exists e, fst (negotiate initialInstructions tools env key p d w) = Thrown e.
Proof.
  unfold negotiation_suffices, negotiate, bind, fetch_ok, throw, ret.
  destruct (offer env) as [sdp|]; simpl; [|by eexists].
  destruct (local_description_ok env); simpl.
  2:{ intros _. by eexists. }
  destruct (negotiation_fetch env) as [|status answer]; simpl; [by eexists|].
  destruct (response_ok status); simpl; [|by eexists].
  destruct (remote_description_ok env); simpl; [done|by eexists].
Qed.

Lemma connect_body_failure (env : ConnectEnv) (w : World) :
  answers_suffice env = false ->
  exists e, fst (connect_body initialInstructions tools env w) = Thrown e.
Proof.
  unfold answers_suffice. intros Hfail.
  pose proof (acquire_credential_returns env w) as Hacq.
  unfold connect_body, bind.
  destruct (credential_suffices env); simpl in Hfail.
  - destruct Hacq as [key ->].
    destruct (open_transport_result w) as (w1 & -> & _). cbn [fst snd].
    pose proof (attach_microphone_returns env (length (peerConnections w)) w1)
      as Hmic.
    destruct (attach_microphone env (length (peerConnections w)) w1)
      as [r w2]. simpl in Hmic. subst r.
    by apply negotiate_failure.
  - destruct Hacq as [e ->]. by exists e.
Qed.

(** [connect], once the credential fetch has settled, returns; it ends
    connected exactly when the answers suffice, and idle with both refs null
    otherwise. *)
Lemma connect_resume_outcome (env : ConnectEnv) (w : World) :
  let w' := snd (connect_resume initialInstructions tools env w) in
  fst (connect_resume initialInstructions tools env w) = Returned tt /\
  isConnected w' = answers_suffice env /\
  (answers_suffice env = true ->
   peerConnectionRef w' = Some (length (peerConnections w)) /\
   dataChannelRef w' = Some (length (dataChannels w))) /\
  (answers_suffice env = false ->
   peerConnectionRef w' = None /\ dataChannelRef w' = None).
Proof.
  cbv zeta. unfold connect_resume, try_catch.
  destruct (answers_suffice env) eqn:Hans.
  - unfold answers_suffice in Hans. apply andb_prop in Hans as [Hcred Hneg].
    unfold negotiation_suffices in Hneg.
    destruct (offer env) as [sdp|] eqn:Hoffer; [|done].
    destruct (negotiation_fetch env) as [|status answer] eqn:Hfetch; [done|].
    apply andb_prop in Hneg as [Hneg Hremote].
    apply andb_prop in Hneg as [Hok Hlocal].
    rewrite (connect_body_success env w sdp answer status) by done.
    by repeat split.
  - destruct (connect_body_failure env w Hans) as [e He].
    destruct (connect_body initialInstructions tools env w) as [[[]|e'] w1];
      [done|].
    by repeat split.
Qed.

End ConnectOutcome.

(** ** What a call of connect comes to *)

Section ConnectVerdict.
Variable initialInstructions : string.
Variable tools : option (list Tool).


End ConnectVerdict.

(** ** The refs and the flag agree *)

Section Consistency.
Variable initialInstructions : string.
Variable tools : option (list Tool).

Lemma session_consistent_frame (w w' : World) :
  session_frame w w' -> session_consistent w -> session_consistent w'.
Proof.
  intros [Hp Hd Hf Hc Hch] [Hflag Hrefs Hconn Hchan].
  split.
  - by rewrite Hf, Hp.
  - by rewrite Hp, Hd.
  - intros p. unfold is_live. rewrite Hp, Hc. apply Hconn.
  - intros p d. rewrite Hp, Hd. intros Hhp Hhd.
    destruct (Hchan p d Hhp Hhd) as (ch & Hl & Ho & Hla & Hli).
    assert (Hl' : map (fun ch => (dc_owner ch, dc_label ch, dc_listening ch))
                    (dataChannels w') !! d
                  = Some (p, "oai-events", true)).
    { rewrite Hch. change (map ?f ?l) with (f <$> l).
      rewrite list_lookup_fmap, Hl. simpl. by rewrite Ho, Hla, Hli. }
    change (map ?f ?l) with (f <$> l) in Hl'.
    rewrite list_lookup_fmap in Hl'.
    destruct (dataChannels w' !! d) as [ch'|]; [|done].
    exists ch'. simpl in Hl'. injection Hl' as -> -> ->. done.
Qed.

Lemma session_consistent_idle (w : World) :
  peerConnectionRef w = None -> dataChannelRef w = None ->
  isConnected w = false -> session_consistent w.
Proof.
  intros Hp Hd Hf. split.
  - rewrite Hp, Hf. split; done.
  - by rewrite Hp, Hd.
  - intros p. by rewrite Hp.
  - intros p d. by rewrite Hp.
Qed.

Lemma disconnect_consistent (w : World) : session_consistent (disconnect w).
Proof. by apply session_consistent_idle. Qed.

Lemma connected_from_consistent (env : ConnectEnv) (sdp answer : string)
    (w : World) :
  session_consistent (connected_from initialInstructions tools env sdp answer w).
Proof.
  split; simpl.
  - split; done.
  - split; done.
  - intros p [= <-]. unfold is_live, closed_flags. simpl.
    rewrite map_app. simpl.
    rewrite <- (length_map pc_closed (peerConnections w)).
    apply lookup_snoc.
  - intros p d [= <-] [= <-]. rewrite lookup_snoc.
    destruct (channel_opens env); eexists; by repeat split.
Qed.

(** Whatever world it starts from, the rest of [connect] ends with refs
    and flag in agreement. *)
Lemma connect_resume_consistent (env : ConnectEnv) (w : World) :
  session_consistent (snd (connect_resume initialInstructions tools env w)).
Proof.
  destruct (answers_suffice env) eqn:Hans.
  - unfold connect_resume, try_catch.
    unfold answers_suffice in Hans. apply andb_prop in Hans as [Hcred Hneg].
    unfold negotiation_suffices in Hneg.
    destruct (offer env) as [sdp|] eqn:Hoffer; [|done].
    destruct (negotiation_fetch env) as [|status answer] eqn:Hfetch; [done|].
    apply andb_prop in Hneg as [Hneg Hremote].
    apply andb_prop in Hneg as [Hok Hlocal].
    rewrite (connect_body_success initialInstructions tools env w sdp answer
               status) by done.
    apply connected_from_consistent.
  - destruct (connect_resume_outcome initialInstructions tools env w)
      as (_ & Hflag & _ & Hidle).
    destruct (Hidle Hans) as [Hp Hd].
    apply session_consistent_idle; congruence.
Qed.

Lemma sendEvent_session_frame (ev : Value) (now : string) (w : World) :
  session_frame w (snd (sendEvent ev now w)).
Proof.
  unfold sendEvent. destruct (channel_is_open w); [|by split].
  destruct (dataChannelRef w) as [d|]; [|by split].
  split; try done. simpl. by apply map_alter_same.
Qed.

Lemma deliver_session_frame (d : nat) (payload now : string) (w : World) :
  session_frame w (deliver d payload now w).
Proof.
  unfold deliver. destruct (dataChannels w !! d) as [ch|]; [|by split].
  destruct (dc_listening ch && _)%bool; [|by split].
  unfold on_message, bind. by destruct (JSON.parse payload).
Qed.

Lemma channel_opened_session_frame (d : nat) (w : World) :
  session_frame w (set_dataChannels (alter open_channel d (dataChannels w)) w).
Proof.
  split; try done. simpl. apply map_alter_same.
  intros ch. unfold open_channel. by destruct (dc_readyState ch).
Qed.

Lemma step_consistent (a : Action) (w : World) :
  session_consistent w ->
  session_consistent (step initialInstructions tools a w).
Proof.
  intros Hw. destruct a as [env| |ev now|b|d|d payload now]; simpl.
  - unfold connect. destruct (peerConnectionRef w); [done|].
    apply connect_resume_consistent.
  - apply disconnect_consistent.
  - eapply session_consistent_frame; [apply sendEvent_session_frame|done].
  - eapply session_consistent_frame; [|exact Hw]. by split.
  - eapply session_consistent_frame; [apply channel_opened_session_frame|done].
  - eapply session_consistent_frame; [apply deliver_session_frame|done].
Qed.

Lemma async_step_consistent (a : AsyncAction) (s : World * nat) :
  session_consistent (fst s) ->
  session_consistent (fst (async_step initialInstructions tools a s)).
Proof.
  intros Hs. destruct a as [a| |env]; simpl.
  - by apply step_consistent.
  - by destruct (peerConnectionRef (fst s)).
  - destruct (snd s); [done|]. apply connect_resume_consistent.
Qed.

Lemma async_run_consistent_from (history : list AsyncAction) (s : World * nat) :
  session_consistent (fst s) ->
  session_consistent (fst (async_run initialInstructions tools history s)).
Proof.
  revert s. induction history as [|a history IH]; intros s Hs; [done|].
  simpl. apply IH. by apply async_step_consistent.
Qed.


(** With calls that do not overlap, the count of live transports is the
    flag the page shows: one while [isConnected], none otherwise. *)
Theorem run_live_transports_connected (today : string) (history : list Action) :
  let w := run initialInstructions tools history (initial_world today) in
  live_transports w = (if isConnected w then 1 else 0)%nat.
Proof.
  intros w.
  assert (Hinv : transport_invariant w)
    by apply run_invariant, transport_invariant_initial.
  assert (Hcons : session_consistent w).
  { pose proof (async_run_consistent_from (map serial history)
                  (initial_world today, 0%nat)) as H.
    rewrite async_run_serial in H. apply H. by apply session_consistent_idle. }
  rewrite (live_transports_held w Hinv).
  destruct Hcons as [Hflag _ _ _].
  destruct (peerConnectionRef w) as [p|], (isConnected w); try done.
  - assert (Some p <> None) as Habs%Hflag by done. done.
  - assert (true = true) as Habs%Hflag by done. done.
Qed.

End Consistency.

(** ** The session configuration and the microphone *)

Section SessionUpdate.
Variable initialInstructions : string.
Variable tools : option (list Tool).

Lemma answers_suffice_inv (env : ConnectEnv) :
  answers_suffice env = true ->
  exists sdp answer status,
    credential_suffices env = true /\ offer env = Some sdp /\
    local_description_ok env = true /\
    negotiation_fetch env = fetch_response status answer /\
    response_ok status = true /\ remote_description_ok env = true.
Proof.
  unfold answers_suffice, negotiation_suffices.
  intros [Hcred Hneg]%andb_prop.
  destruct (offer env) as [sdp|]; [|done].
  destruct (negotiation_fetch env) as [|status answer]; [done|].
  apply andb_prop in Hneg as [[Hok Hlocal]%andb_prop Hremote].
  by exists sdp, answer, status.
Qed.

Lemma connect_resume_success (env : ConnectEnv) (w : World) :
  answers_suffice env = true ->
  exists sdp answer,
    offer env = Some sdp /\
    (exists status, negotiation_fetch env = fetch_response status answer) /\
    connect_resume initialInstructions tools env w
    = (Returned tt, connected_from initialInstructions tools env sdp answer w).
Proof.
  intros (sdp & answer & status & Hcred & Hoffer & Hlocal & Hfetch & Hok
          & Hremote)%answers_suffice_inv.
  exists sdp, answer. split; [done|]. split; [by exists status|].
  unfold connect_resume, try_catch.
  by rewrite (connect_body_success initialInstructions tools env w sdp answer
                status).
Qed.

(** The session configuration (instructions and tools) goes out only if
    the data channel is already open when the negotiation ends. If it is
    not, [connect] sends nothing, and the later opening of the channel sends
    nothing either: the hook listens for messages only. Sent or not, the
    configuration is not recorded in the event list. *)
Theorem session_update_sent_only_if_open (env : ConnectEnv) (w : World) :
  answers_suffice env = true ->
  let d := length (dataChannels w) in
  let w' := snd (connect_resume initialInstructions tools env w) in
  let w'' := step initialInstructions tools (channel_opened d) w' in
  dataChannelRef w' = Some d /\
  sent_on w' d
  = (if channel_opens env
     then [default "undefined"
             (JSON.stringify (session_update initialInstructions tools))]
     else []) /\
  realtimeEvents w' = realtimeEvents w /\
  (channel_opens env = false ->
   channel_is_open w' = false /\
   channel_is_open w'' = true /\ sent_on w'' d = [] /\
   realtimeEvents w'' = realtimeEvents w).
Proof.
  intros Hans. cbv zeta.
  destruct (connect_resume_success env w Hans) as (sdp & answer & _ & _ & ->).
  cbn [snd]. unfold sent_on, channel_is_open, step. cbn -[JSON.stringify].
  rewrite lookup_snoc.
  split; [done|]. split; [by destruct (channel_opens env)|]. split; [done|].
  intros ->. rewrite alter_snoc, lookup_snoc. by vm_compute.
Qed.

(** The microphone is optional. When it is refused the session still
    connects: one error is logged, no track is created and none is attached
    to the connection. When it is granted its tracks are attached in order
    and nothing is logged. *)
Theorem connect_microphone_optional (env : ConnectEnv) (w : World) :
  answers_suffice env = true ->
  let p := length (peerConnections w) in
  let w' := snd (connect_resume initialInstructions tools env w) in
  isConnected w' = true /\
  peerConnectionRef w' = Some p /\
  exists c,
    peerConnections w' !! p = Some c /\ pc_closed c = false /\
    match user_media env with
    | None =>
        pc_senders c = [] /\ tracks w' = tracks w /\
        console w' = console w ++ ["Error accessing microphone:"]
    | Some stream =>
        pc_senders c = seq (length (tracks w)) (length stream) /\
        tracks w' = tracks w ++ stream /\
        console w' = console w
    end.
Proof.
  intros Hans. cbv zeta.
  destruct (connect_resume_success env w Hans) as (sdp & answer & _ & _ & ->).
  cbn [snd]. split; [done|]. split; [done|].
  eexists. split; [apply lookup_snoc|]. split; [done|].
  simpl. destruct (user_media env); simpl; by rewrite ?app_nil_r.
Qed.

End SessionUpdate.

Section SessionUpdateInstances.

Lemma session_update_sent_only_if_open_witness :
  let w := initial_world "2025-01-01" in
  let w' := snd (connect_resume "instructions" page_tools slow_channel_env w) in
  let w'' := step "instructions" page_tools (channel_opened 0) w' in
  dataChannelRef w' = Some 0%nat /\
  sent_on w' 0 = [] /\
  realtimeEvents w' = [] /\
  channel_is_open w' = false /\
  channel_is_open w'' = true /\ sent_on w'' 0 = [] /\
  realtimeEvents w'' = [].
Proof.
  pose proof (session_update_sent_only_if_open "instructions" page_tools
                slow_channel_env (initial_world "2025-01-01") eq_refl) as H.
  cbv zeta in H. destruct H as (Hd & Hsent & Hev & Hlater).
  destruct (Hlater eq_refl) as (Hc & Ho & Hs & He).
  cbv zeta. repeat split; assumption.
Defined.

Lemma connect_microphone_optional_witness :
  let w := initial_world "2025-01-01" in
  let w' := snd (connect_resume "instructions" page_tools no_microphone_env w) in
  isConnected w' = true /\
  peerConnectionRef w' = Some 0%nat /\
  exists c,
    peerConnections w' !! 0%nat = Some c /\ pc_closed c = false /\
    pc_senders c = [] /\ tracks w' = [] /\
    console w' = ["Error accessing microphone:"].
Proof.
  apply (connect_microphone_optional "instructions" page_tools
           no_microphone_env (initial_world "2025-01-01")).
  reflexivity.
Defined.

End SessionUpdateInstances.

(** ** What the page shows over a history *)

Lemma log_frame_refl (w : World) : log_frame w w.
Proof. by split. Qed.

Lemma log_frame_trans (w1 w2 w3 : World) :
  log_frame w1 w2 -> log_frame w2 w3 -> log_frame w1 w3.
Proof. intros [] []. split; congruence. Qed.

Lemma disconnect_log (w : World) : log_frame w (disconnect w).
Proof.
  unfold disconnect.
  destruct (dataChannelRef w) as [d|];
    destruct (peerConnectionRef w) as [p|] eqn:Href; simpl; rewrite ?Href;
    by split.
Qed.

Section EventLog.
Variable initialInstructions : string.
Variable tools : option (list Tool).

Lemma connect_resume_log (env : ConnectEnv) :
  preserves log_frame (connect_resume initialInstructions tools env).
Proof.
  unfold connect_resume.
  apply (preserves_try_catch _ log_frame_trans).
  - unfold connect_body.
    apply (preserves_bind _ log_frame_trans).
    { intros w. rewrite acquire_credential_unchanged. apply log_frame_refl. }
    intros key. apply (preserves_bind _ log_frame_trans).
    { intros w. unfold open_transport, bind, get_world, modify,
        update_connection, update_channel, ret. cbn [fst snd].
      by split. }
    intros pd. apply (preserves_bind _ log_frame_trans).
    { unfold attach_microphone.
      apply (preserves_try_catch _ log_frame_trans).
      - destruct (user_media env) as [stream|].
        + apply preserves_modify. intros w. rewrite add_tracks_world.
          by split.
        + apply (preserves_throw _ log_frame_refl).
      - intros _. apply preserves_modify. intros w. by split. }
    intros _. unfold negotiate, fetch_ok, update_connection, update_channel.
    repeat frame_step log_frame_refl log_frame_trans.
  - intros _. apply (preserves_bind _ log_frame_trans).
    + apply preserves_modify. intros w. by split.
    + intros _. apply preserves_modify. apply disconnect_log.
Qed.

Lemma extends_refl (l : list RealtimeEvent) :
  exists added, l = l ++ added /\ (length added <= 1)%nat.
Proof. exists []. rewrite app_nil_r. split; [done|simpl; lia]. Qed.

(** One action extends the event list by at most one event and leaves the
    memory alone. *)
Lemma step_log (a : Action) (w : World) :
  let w' := step initialInstructions tools a w in
  memoryKv w' = memoryKv w /\
  (exists added, realtimeEvents w' = realtimeEvents w ++ added /\
                 (length added <= 1)%nat) /\
  isMuted w' = match a with call_setIsMuted b => b | _ => isMuted w end.
Proof.
  assert (Hsame : forall w' : World,
            memoryKv w' = memoryKv w -> realtimeEvents w' = realtimeEvents w ->
            isMuted w' = isMuted w ->
            memoryKv w' = memoryKv w /\
            (exists added, realtimeEvents w' = realtimeEvents w ++ added /\
                           (length added <= 1)%nat) /\
            isMuted w' = isMuted w).
  { intros w' Hk He Hm. rewrite He. repeat split; try done.
    apply extends_refl. }
  cbv zeta. destruct a as [env| |ev now|b|d|d payload now]; simpl.
  - unfold connect. destruct (peerConnectionRef w); [by apply Hsame|].
    destruct (connect_resume_log env w) as [Hm Hk He]. by apply Hsame.
  - destruct (disconnect_log w) as [Hm Hk He]. by apply Hsame.
  - unfold sendEvent. destruct (channel_is_open w); [|by apply Hsame].
    destruct (dataChannelRef w); [|by apply Hsame].
    simpl. repeat split; try done. eexists. split; [done|simpl; lia].
  - repeat split; try done. apply extends_refl.
  - by apply Hsame.
  - unfold deliver. destruct (dataChannels w !! d) as [ch|]; [|by apply Hsame].
    destruct (dc_listening ch && _)%bool; [|by apply Hsame].
    unfold on_message, bind. destruct (JSON.parse payload); [|by apply Hsame].
    simpl. repeat split; try done. eexists. split; [done|simpl; lia].
Qed.

Lemma async_step_log (a : AsyncAction) (s : World * nat) :
  let w' := fst (async_step initialInstructions tools a s) in
  memoryKv w' = memoryKv (fst s) /\
  (exists added, realtimeEvents w' = realtimeEvents (fst s) ++ added /\
                 (length added <= 1)%nat) /\
  isMuted w' = requested_mute [a] (isMuted (fst s)).
Proof.
  cbv zeta. destruct a as [a| |env]; simpl.
  - destruct (step_log a (fst s)) as (Hk & He & Hm).
    split; [done|]. split; [done|]. rewrite Hm. by destruct a.
  - destruct (peerConnectionRef (fst s)); repeat split; try done;
      apply extends_refl.
  - destruct (snd s); [repeat split; try done; apply extends_refl|].
    destruct (connect_resume_log env (fst s)) as [Hm Hk He].
    cbn [fst]. rewrite Hk, He, Hm. repeat split; try done.
    apply extends_refl.
Qed.

(** Over any history, overlapping calls of [connect] included: the memory
    the page shows never changes, recorded events are never dropped or
    reordered (the list only grows at its end, by at most one event per
    action, and [disconnect] does not clear it), and the mute flag is the
    one last asked for. *)
Theorem async_run_page_frame (history : list AsyncAction) (s : World * nat) :
  let w' := fst (async_run initialInstructions tools history s) in
  memoryKv w' = memoryKv (fst s) /\
  (exists added, realtimeEvents w' = realtimeEvents (fst s) ++ added /\
                 (length added <= length history)%nat) /\
  isMuted w' = requested_mute history (isMuted (fst s)).
Proof.
  cbv zeta. revert s. induction history as [|a history IH]; intros s.
  - simpl. repeat split; try done. exists []. by rewrite app_nil_r.
  - simpl. destruct (IH (async_step initialInstructions tools a s))
      as (Hk & (added & He & Hlen) & Hm).
    destruct (async_step_log a s) as (Hk1 & (added1 & He1 & Hlen1) & Hm1).
    rewrite Hk, He, Hm, Hk1, He1, Hm1. repeat split; try done.
    exists (added1 ++ added). rewrite app_assoc, length_app.
    split; [done|lia].
Qed.

End EventLog.

(** ** sendEvent on an open channel, and after disconnect *)

Section Sending.

(** On an open channel [sendEvent] sends the event as JSON text on the held
    channel (the word undefined for an event that has no JSON text), after
    what was sent before, and records the event with source client at the end
    of the event list; it returns, and changes nothing else. *)
Theorem sendEvent_open_sends (ev : Value) (now : string) (w : World) :
  channel_is_open w = true ->
  exists d,
    dataChannelRef w = Some d /\
    sendEvent ev now w
    = (Returned tt,
       setRealtimeEvents
         (fun prev => prev ++ [{| time := now; source := client; event := ev |}])
         (channel_send d (JSON.stringify ev) w)) /\
    let w' := snd (sendEvent ev now w) in
    sent_on w' d = sent_on w d ++ [default "undefined" (JSON.stringify ev)] /\
    (forall d', d' <> d -> sent_on w' d' = sent_on w d') /\
    realtimeEvents w'
    = realtimeEvents w ++ [{| time := now; source := client; event := ev |}] /\
    channel_is_open w' = true /\
    peerConnections w' = peerConnections w /\
    isConnected w' = isConnected w /\ console w' = console w.
Proof.
  intros Hopen. unfold sendEvent. rewrite Hopen.
  unfold channel_is_open in *.
  destruct (dataChannelRef w) as [d|] eqn:Hd; [|done].
  exists d. split; [done|]. split; [done|]. cbn -[JSON.stringify].
  unfold sent_on. cbn -[JSON.stringify]. rewrite Hd.
  destruct (dataChannels w !! d) as [ch|] eqn:Hch; [|done].
  rewrite list_lookup_alter_eq, Hch. cbn -[JSON.stringify].
  repeat split; try done.
  intros d' Hne. by rewrite list_lookup_alter_ne.
Qed.

Lemma disconnect_held_channel (w : World) (d : nat) (ch : RTCDataChannel) :
  dataChannelRef w = Some d -> dataChannels (disconnect w) !! d = Some ch ->
  dc_readyState ch <> rs_open.
Proof.
  intros Hd. unfold disconnect. rewrite Hd.
  destruct (peerConnectionRef w) as [p|] eqn:Hp; simpl; rewrite ?Hp; simpl.
  - change (map ?f ?l) with (f <$> l).
    rewrite list_lookup_fmap, list_lookup_alter_eq.
    destruct (dataChannels w !! d) as [ch0|]; [|done]. simpl.
    intros [= <-]. unfold shut_channel, close_channel. simpl.
    destruct (decide (dc_owner ch0 = p)); simpl; [done|].
    by destruct (dc_readyState ch0).
  - rewrite list_lookup_alter_eq.
    destruct (dataChannels w !! d) as [ch0|]; [|done]. simpl.
    intros [= <-]. simpl. by destruct (dc_readyState ch0).
Qed.

(** After [disconnect], whatever the session was: a second [disconnect]
    changes nothing, every [sendEvent] is dropped, the channel that was
    held is no longer open, and a message that still arrives on it is not
    recorded. *)
Theorem disconnect_silences
    (w : World) (ev : Value) (now payload : string) (d : nat) :
  dataChannelRef w = Some d ->
  let w' := disconnect w in
  disconnect w' = w' /\
  sendEvent ev now w' = (Returned tt, w') /\
  (forall ch, dataChannels w' !! d = Some ch -> dc_readyState ch <> rs_open) /\
  deliver d payload now w' = w'.
Proof.
  intros Hd. cbv zeta. split; [|split; [done|split]].
  - unfold disconnect. rewrite Hd.
    by destruct (peerConnectionRef w) as [p|] eqn:Hp; simpl; rewrite ?Hp.
  - intros ch. by apply disconnect_held_channel.
  - unfold deliver.
    destruct (dataChannels (disconnect w) !! d) as [ch|] eqn:Hch; [|done].
    pose proof (disconnect_held_channel w d ch Hd Hch) as Hclosed.
    rewrite (bool_decide_eq_false_2 _ Hclosed). by rewrite andb_false_r.
Qed.

Lemma disconnect_silences_witness :
  let w' := disconnect connected_world in
  disconnect w' = w' /\
  sendEvent force_reply "2025-01-01T00:00:01.000Z" w' = (Returned tt, w') /\
  (forall ch, dataChannels w' !! 0%nat = Some ch ->
              dc_readyState ch <> rs_open) /\
  deliver 0 set_memory_payload "2025-01-01T00:00:01.000Z" w' = w'.
Proof.
  apply (disconnect_silences connected_world force_reply
           "2025-01-01T00:00:01.000Z" set_memory_payload 0).
  reflexivity.
Defined.

Lemma sendEvent_open_sends_witness :
  exists d,
    dataChannelRef connected_world = Some d /\
    sendEvent force_reply "2025-01-01T00:00:01.000Z" connected_world
    = (Returned tt,
       setRealtimeEvents
         (fun prev =>
            prev ++ [{| time := "2025-01-01T00:00:01.000Z"; source := client;
                        event := force_reply |}])
         (channel_send d (JSON.stringify force_reply) connected_world)) /\
    let w' :=
      snd (sendEvent force_reply "2025-01-01T00:00:01.000Z" connected_world) in
    sent_on w' d
    = sent_on connected_world d
      ++ [default "undefined" (JSON.stringify force_reply)] /\
    (forall d', d' <> d -> sent_on w' d' = sent_on connected_world d') /\
    realtimeEvents w'
    = realtimeEvents connected_world
      ++ [{| time := "2025-01-01T00:00:01.000Z"; source := client;
             event := force_reply |}] /\
    channel_is_open w' = true /\
    peerConnections w' = peerConnections connected_world /\
    isConnected w' = isConnected connected_world /\
    console w' = console connected_world.
Proof.
  apply (sendEvent_open_sends force_reply "2025-01-01T00:00:01.000Z"
           connected_world).
  reflexivity.
Defined.

End Sending.

(** ** Objects: writing and reading a property *)

Section Objects.

Lemma obj_get_set_eq (fields : list (string * Value)) (key : string)
    (v : Value) :
  obj_get (obj_set fields key v) key = v.
Proof.
  induction fields as [|[k x] fields IH]; simpl.
  - by rewrite String.eqb_refl.
  - destruct (String.eqb k key) eqn:E; simpl; by rewrite E.
Qed.

Lemma obj_get_set_ne (fields : list (string * Value)) (key key' : string)
    (v : Value) :
  key' <> key -> obj_get (obj_set fields key v) key' = obj_get fields key'.
Proof.
  intros Hne. induction fields as [|[k x] fields IH]; simpl.
  - destruct (String.eqb key key') eqn:E; [|done].
    apply String.eqb_eq in E. congruence.
  - destruct (String.eqb k key) eqn:E; simpl.
    + apply String.eqb_eq in E. subst k.
      destruct (String.eqb key key') eqn:E'; [|done].
      apply String.eqb_eq in E'. congruence.
    + by destruct (String.eqb k key').
Qed.

Lemma obj_set_keys (fields : list (string * Value)) (key : string) (v : Value) :
  map fst (obj_set fields key v)
  = if bool_decide (key ∈ map fst fields) then map fst fields
    else map fst fields ++ [key].
Proof.
  induction fields as [|[k x] fields IH]; simpl; [done|].
  destruct (String.eqb k key) eqn:E; simpl.
  - apply String.eqb_eq in E. subst k.
    rewrite bool_decide_eq_true_2; [done|]. apply elem_of_cons. by left.
  - apply String.eqb_neq in E. rewrite IH.
    destruct (bool_decide (key ∈ map fst fields)) eqn:Hin.
    + apply bool_decide_eq_true in Hin.
      rewrite bool_decide_eq_true_2; [done|]. apply elem_of_cons. by right.
    + apply bool_decide_eq_false in Hin.
      rewrite bool_decide_eq_false_2; [done|].
      intros [?|?]%elem_of_cons; congruence.
Qed.

Lemma obj_set_elem (fields : list (string * Value)) (key k' : string)
    (v : Value) :
  k' ∈ map fst (obj_set fields key v) <-> k' = key \/ k' ∈ map fst fields.
Proof.
  rewrite obj_set_keys. destruct (bool_decide _) eqn:Hin.
  - apply bool_decide_eq_true in Hin. split; [by right|].
    by intros [->|?].
  - rewrite elem_of_app, list_elem_of_singleton. tauto.
Qed.

(** The handler of [set_memory], given an object with a string under [key]:
    the memory then holds the argument's [value] under that key; every other
    key reads as before; the keys of the memory are the ones it had and that
    one; nothing but the memory changes. *)
Theorem set_memory_fn_stores
    (fields : list (string * Value)) (w : World) (k : string) :
  obj_get fields "key" = VString k ->
  let w' := fn set_memory (VObject fields) w in
  obj_get (memoryKv w') k = obj_get fields "value" /\
  (forall k', k' <> k -> obj_get (memoryKv w') k' = obj_get (memoryKv w) k') /\
  (forall k', k' ∈ map fst (memoryKv w')
              <-> k' = k \/ k' ∈ map fst (memoryKv w)) /\
  w' = setMemoryKv (fun _ => memoryKv w') w.
Proof.
  intros Hkey. cbv zeta. simpl. rewrite Hkey. simpl.
  split; [apply obj_get_set_eq|].
  split; [intros k' Hne; by apply obj_get_set_ne|].
  split; [intros k'; apply obj_set_elem|done].
Qed.

Lemma set_memory_fn_stores_witness :
  let w := initial_world "2025-01-01" in
  let w' := fn set_memory city_arguments w in
  obj_get (memoryKv w') "city" = VString "nyc" /\
  (forall k', k' <> "city" ->
     obj_get (memoryKv w') k' = obj_get (memoryKv w) k') /\
  (forall k', k' ∈ map fst (memoryKv w')
              <-> k' = "city" \/ k' ∈ map fst (memoryKv w)) /\
  w' = setMemoryKv (fun _ => memoryKv w') w.
Proof.
  apply (set_memory_fn_stores
           [("key", VString "city"); ("value", VString "nyc")]
           (initial_world "2025-01-01") "city").
  reflexivity.
Defined.

End Objects.

(** ** The declaration of a tool *)

Section ToolDeclaration.

Lemma obj_get_fold_set (fields acc : list (string * Value)) (k : string) :
  NoDup (map fst fields) ->
  obj_get (fold_left (fun fs kv => obj_set fs (fst kv) (snd kv)) fields acc) k
  = if bool_decide (k ∈ map fst fields) then obj_get fields k
    else obj_get acc k.
Proof.
  revert acc. induction fields as [|[k0 v0] fields IH]; intros acc Hnd.
  - done.
  - cbn [map fst] in Hnd. apply NoDup_cons in Hnd as [Hnew Hnd].
    cbn [fold_left fst snd]. rewrite IH by done.
    cbn [map fst obj_get]. destruct (String.eqb_spec k0 k) as [->|Hne].
    + rewrite bool_decide_eq_false_2 by done.
      rewrite bool_decide_eq_true_2 by (apply elem_of_cons; by left).
      apply obj_get_set_eq.
    + rewrite obj_get_set_ne by congruence.
      destruct (bool_decide (k ∈ map fst fields)) eqn:Hin.
      * apply bool_decide_eq_true in Hin.
        rewrite bool_decide_eq_true_2; [done|]. apply elem_of_cons. by right.
      * apply bool_decide_eq_false in Hin.
        rewrite bool_decide_eq_false_2; [done|].
        intros [?|?]%elem_of_cons; congruence.
Qed.

Lemma fold_set_keys (fields acc : list (string * Value)) (k : string) :
  k ∈ map fst (fold_left (fun fs kv => obj_set fs (fst kv) (snd kv)) fields acc)
  <-> k ∈ map fst acc \/ k ∈ map fst fields.
Proof.
  revert acc. induction fields as [|[k0 v0] fields IH]; intros acc.
  - cbn [fold_left map]. rewrite elem_of_nil. tauto.
  - cbn [fold_left fst snd map]. rewrite IH, obj_set_elem, elem_of_cons. tauto.
Qed.

(** The declaration of a tool that [connect] sends in [session.update],
    for a schema whose keys are distinct (as the keys of an object are):
    an object with every field of the schema, and [type: "function"]
    unless the schema has a [type] of its own, which then wins; it has no
    other field. *)
Theorem tool_declaration_fields (t : Tool) :
  NoDup (map fst (schema t)) ->
  exists fields,
    tool_declaration t = VObject fields /\
    (forall k, k ∈ map fst (schema t) -> obj_get fields k = obj_get (schema t) k) /\
    ("type" ∉ map fst (schema t) -> obj_get fields "type" = VString "function") /\
    (forall k, k ∈ map fst fields <-> k = "type" \/ k ∈ map fst (schema t)).
Proof.
  intros Hnd. eexists. split; [reflexivity|]. split; [|split].
  - intros k Hk. rewrite obj_get_fold_set by done.
    by rewrite bool_decide_eq_true_2.
  - intros Hk. rewrite obj_get_fold_set by done.
    by rewrite bool_decide_eq_false_2.
  - intros k. rewrite fold_set_keys. cbn [map fst].
    rewrite list_elem_of_singleton. tauto.
Qed.

Lemma tool_declaration_fields_witness :
  exists fields,
    tool_declaration set_memory = VObject fields /\
    (forall k, k ∈ map fst (schema set_memory) ->
       obj_get fields k = obj_get (schema set_memory) k) /\
    ("type" ∉ map fst (schema set_memory) ->
     obj_get fields "type" = VString "function") /\
    (forall k, k ∈ map fst fields
               <-> k = "type" \/ k ∈ map fst (schema set_memory)).
Proof.
  apply (tool_declaration_fields set_memory).
  exact (bool_decide_unpack (NoDup ["name"; "description"; "parameters"]) I).
Defined.

End ToolDeclaration.

(** ** The clock of the event list *)

Ltac mod_bound :=
  match goal with
  | |- 0 <= ?x mod ?m < _ => pose proof (Z.mod_pos_bound x m ltac:(lia)); lia
  end.

Section Clock.

Lemma pad_two_digits (n : Z) : 0 <= n < 100 -> pad (Some n) = two_digits n.
Proof.
  intros Hn.
  assert (Hall : forallb
                   (fun k => String.eqb (pad (Some (Z.of_nat k)))
                               (two_digits (Z.of_nat k)))
                   (seq 0 100) = true) by (vm_compute; reflexivity).
  rewrite forallb_forall in Hall.
  specialize (Hall (Z.to_nat n)). rewrite Z2Nat.id in Hall by lia.
  apply String.eqb_eq, Hall, in_seq. lia.
Qed.

Lemma two_digits_inj (a b : Z) :
  0 <= a < 100 -> 0 <= b < 100 -> two_digits a = two_digits b -> a = b.
Proof.
  intros Ha Hb. unfold two_digits. intros [= H1 H2].
  pose proof (Z.div_mod a 10 ltac:(lia)) as Hda.
  pose proof (Z.div_mod b 10 ltac:(lia)) as Hdb.
  pose proof (Z.mod_pos_bound a 10 ltac:(lia)).
  pose proof (Z.mod_pos_bound b 10 ltac:(lia)).
  assert (0 <= a / 10 < 10) by (split; [apply Z.div_pos|apply Z.div_lt_upper_bound]; lia).
  assert (0 <= b / 10 < 10) by (split; [apply Z.div_pos|apply Z.div_lt_upper_bound]; lia).
  set (qa := a / 10) in *. set (qb := b / 10) in *.
  set (ra := a mod 10) in *. set (rb := b mod 10) in *.
  apply (f_equal N_of_ascii) in H1, H2.
  rewrite !N_ascii_embedding in H1, H2 by lia.
  lia.
Qed.

Lemma two_digits_app_inj (a b : Z) (s t : string) :
  two_digits a +:+ s = two_digits b +:+ t ->
  two_digits a = two_digits b /\ s = t.
Proof.
  intros Heq. cbv [two_digits append] in Heq. injection Heq as H1 H2 H3.
  unfold two_digits. split; congruence.
Qed.

Lemma sep_inj (c : ascii) (s t : string) :
  String c EmptyString +:+ s = String c EmptyString +:+ t -> s = t.
Proof. intros Heq. cbv [append] in Heq. by injection Heq. Qed.

Lemma clock_field_nonneg (d unit modulus : Z) :
  0 <= d -> 0 < unit -> 0 < modulus ->
  clock_field (Some d) unit modulus = Some ((d / unit) mod modulus).
Proof.
  intros Hd Hu Hm. unfold clock_field.
  rewrite Z.rem_mod_nonneg; [done| |lia]. apply Z.div_pos; lia.
Qed.

Lemma formatTime_fields (t0 d : Z) :
  0 <= d ->
  formatTime (Some t0) (Some (t0 + d))
  = two_digits ((d / 60000) mod 60) +:+ ":" +:+
    two_digits ((d / 1000) mod 60) +:+ "." +:+
    two_digits ((d / 10) mod 100).
Proof.
  intros Hd. unfold formatTime.
  replace (t0 + d - t0) with d by lia.
  rewrite !clock_field_nonneg by lia.
  by rewrite !pad_two_digits by mod_bound.
Qed.

(** For a timestamp at or after the start, the clock reads minutes, seconds
    and hundredths of a second, each on two digits: eight characters in
    all. *)
Theorem formatTime_clock (t0 d : Z) :
  0 <= d ->
  formatTime (Some t0) (Some (t0 + d))
  = two_digits ((d / 60000) mod 60) +:+ ":" +:+
    two_digits ((d / 1000) mod 60) +:+ "." +:+
    two_digits ((d / 10) mod 100) /\
  String.length (formatTime (Some t0) (Some (t0 + d))) = 8%nat.
Proof.
  intros Hd. rewrite (formatTime_fields t0 d Hd). split; reflexivity.
Qed.

(** Two timestamps at or after the start read the same on the clock exactly
    when they fall in the same hundredth of a second, hours apart or not:
    the clock wraps every hour and resolves 10 ms. *)
Theorem formatTime_resolution (t0 d1 d2 : Z) :
  0 <= d1 -> 0 <= d2 ->
  formatTime (Some t0) (Some (t0 + d1)) = formatTime (Some t0) (Some (t0 + d2))
  <-> (d1 / 10) mod 360000 = (d2 / 10) mod 360000.
Proof.
  intros H1 H2.
  rewrite (formatTime_fields t0 d1 H1), (formatTime_fields t0 d2 H2).
  assert (Hfields : forall d, 0 <= d ->
            (d / 10) mod 360000
            = (d / 10) mod 100 + 100 * ((d / 1000) mod 60)
              + 6000 * ((d / 60000) mod 60)).
  { intros d Hd.
    replace (d / 1000) with (d / 10 / 100)
      by (rewrite Z.div_div by lia; done).
    replace (d / 60000) with (d / 10 / 6000)
      by (rewrite Z.div_div by lia; done).
    set (c := d / 10).
    pose proof (Z.div_mod c 360000 ltac:(lia)).
    pose proof (Z.mod_pos_bound c 360000 ltac:(lia)).
    pose proof (Z.div_mod c 100 ltac:(lia)).
    pose proof (Z.mod_pos_bound c 100 ltac:(lia)).
    pose proof (Z.div_mod (c / 100) 60 ltac:(lia)).
    pose proof (Z.mod_pos_bound (c / 100) 60 ltac:(lia)).
    pose proof (Z.div_mod (c / 6000) 60 ltac:(lia)).
    pose proof (Z.mod_pos_bound (c / 6000) 60 ltac:(lia)).
    assert (c / 6000 = c / 100 / 60) by (rewrite Z.div_div by lia; done).
    assert (c / 360000 = c / 6000 / 60) by (rewrite Z.div_div by lia; done).
    lia. }
  rewrite (Hfields d1 H1), (Hfields d2 H2).
  pose proof (Z.mod_pos_bound (d1 / 10) 100 ltac:(lia)).
  pose proof (Z.mod_pos_bound (d2 / 10) 100 ltac:(lia)).
  pose proof (Z.mod_pos_bound (d1 / 1000) 60 ltac:(lia)).
  pose proof (Z.mod_pos_bound (d2 / 1000) 60 ltac:(lia)).
  pose proof (Z.mod_pos_bound (d1 / 60000) 60 ltac:(lia)).
  pose proof (Z.mod_pos_bound (d2 / 60000) 60 ltac:(lia)).
  split.
  - intros [Hm [Hs Hh%sep_inj]%sep_inj%two_digits_app_inj]%two_digits_app_inj.
    apply two_digits_inj in Hm, Hs, Hh; lia.
  - intros Heq.
    assert ((d1 / 10) mod 100 = (d2 / 10) mod 100 /\
            (d1 / 1000) mod 60 = (d2 / 1000) mod 60 /\
            (d1 / 60000) mod 60 = (d2 / 60000) mod 60) as (-> & -> & ->)
      by lia.
    done.
Qed.

End Clock.

Section ClockInstances.

Lemma formatTime_clock_witness :
  formatTime (Some 1735689600000) (Some (1735689600000 + 3661230))
  = "01:01.23" /\
  String.length
    (formatTime (Some 1735689600000) (Some (1735689600000 + 3661230)))
  = 8%nat.
Proof.
  apply (formatTime_clock 1735689600000 3661230). lia.
Defined.

Lemma formatTime_resolution_witness :
  formatTime (Some 1735689600000) (Some (1735689600000 + 61230))
  = formatTime (Some 1735689600000) (Some (1735689600000 + 3661239)).
Proof.
  apply (formatTime_resolution 1735689600000 61230 3661239); [lia|lia|].
  reflexivity.
Defined.

End ClockInstances.

(** ** Upsampling: every output interpolates two neighbours *)

Section Interpolation.
Local Open Scope Q_scope.





End Interpolation.

(** ** Peak mode of normalizeArray *)

Section PeakMode.
Local Open Scope Q_scope.
Variable data : list Q.
Variable m : nat.
Let n : nat := length data.







End PeakMode.

Section PeakModeResult.
Local Open Scope Q_scope.




End PeakModeResult.

(** ** The cache of normalizeArray *)

Section Memo.
Context {F : Type} `{JsNumber F}.

(** A memoized call: on a miss the result is computed and stored; on a hit
    the stored array is returned and the buffer is not looked at. Either
    way the result is cached afterwards, so a later memoized call for the
    same buffer object, [m] and mode returns the same array whatever the
    buffer then holds, and leaves the cache as it is. Entries under other
    keys are not touched. *)
Theorem normalizeArray_memoized
    (dataMap : DataMap) (dataId : nat) (data data' : list F) (m : nat)
    (downsamplePeaks : bool) :
  let r := (normalizeArray dataMap dataId data m downsamplePeaks true).1 in
  let dataMap1 := (normalizeArray dataMap dataId data m downsamplePeaks true).2 in
  r = default (normalizeArray_compute data m downsamplePeaks)
        (cached dataMap dataId m downsamplePeaks) /\
  cached dataMap1 dataId m downsamplePeaks = Some r /\
  normalizeArray dataMap1 dataId data' m downsamplePeaks true = (r, dataMap1) /\
  forall (dataId' m' : nat) (downsamplePeaks' : bool),
    (dataId', m', downsamplePeaks') <> (dataId, m, downsamplePeaks) ->
    cached dataMap1 dataId' m' downsamplePeaks'
    = cached dataMap dataId' m' downsamplePeaks'.
Proof.
  cbv zeta. unfold normalizeArray, cached. unfold DataMap in *.
  set (cache0 := default ∅ (dataMap !! dataId)).
  set (entry := default ∅ (cache0 !! m)).
  rewrite !lookup_insert_eq. cbn [default from_option id].
  assert (Hentry : match dataMap !! dataId with
                   | Some cache =>
                       match cache !! m with
                       | Some entry => entry !! downsamplePeaks
                       | None => None
                       end
                   | None => None
                   end = entry !! downsamplePeaks).
  { subst entry cache0. destruct (dataMap !! dataId) as [cache|]; simpl.
    - destruct (cache !! m); simpl; [done|]. by rewrite lookup_empty.
    - by rewrite !lookup_empty. }
  rewrite Hentry.
  assert (Hother : forall (dataId' m' : nat) (p' : bool) entry',
            (dataId', m', p') <> (dataId, m, downsamplePeaks) ->
            entry' !! downsamplePeaks = entry' !! downsamplePeaks ->
            (forall p, p <> downsamplePeaks -> entry' !! p = entry !! p) ->
            match <[dataId := <[m := entry']> cache0]> dataMap !! dataId' with
            | Some cache =>
                match cache !! m' with
                | Some e => e !! p'
                | None => None
                end
            | None => None
            end
            = match dataMap !! dataId' with
              | Some cache =>
                  match cache !! m' with
                  | Some e => e !! p'
                  | None => None
                  end
              | None => None
              end).
  { intros dataId' m' p' entry' Hne _ Hsame.
    destruct (decide (dataId' = dataId)) as [->|Hid].
    2:{ by rewrite lookup_insert_ne. }
    rewrite lookup_insert_eq.
    destruct (decide (m' = m)) as [->|Hm].
    2:{ rewrite lookup_insert_ne by done. subst cache0.
        destruct (dataMap !! dataId); simpl; [done|].
        by rewrite lookup_empty. }
    rewrite lookup_insert_eq.
    assert (Hp : p' <> downsamplePeaks) by congruence.
    rewrite (Hsame p' Hp). subst entry cache0.
    destruct (dataMap !! dataId) as [cache|]; simpl.
    - destruct (cache !! m); simpl; [done|]. by rewrite lookup_empty.
    - by rewrite !lookup_empty. }
  destruct (entry !! downsamplePeaks) as [hit|] eqn:Hhit;
    cbn [fst snd default from_option id].
  - split; [done|].
    repeat (rewrite ?lookup_insert_eq, ?insert_insert_eq;
            cbn [default from_option id]).
    rewrite Hhit. split; [done|]. split; [done|].
    intros dataId' m' p' Hne. by apply Hother.
  - split; [done|].
    repeat (rewrite ?lookup_insert_eq, ?insert_insert_eq;
            cbn [default from_option id]).
    split; [done|]. split; [done|].
    intros dataId' m' p' Hne. apply Hother; [done..|].
    intros p Hp. by rewrite lookup_insert_ne.
Qed.

End Memo.

(** ** normalizeArray at its bounds *)

Section Degenerate.
Local Open Scope Q_scope.

Lemma downsample_zero_buckets (peaks : bool) (data : list Q) (j : nat) :
  (S j <= length data)%nat ->
  fold_left (downsample_step peaks (map Fin data) 0 (length data))
    (seq 0 (S j)) ([], [])
  = ([Num NonFinite], [Num NonFinite]).
Proof.
  assert (Hstep : forall (i : nat) st,
            (i < length data)%nat ->
            st = ([], []) \/ st = ([Num NonFinite], [Num NonFinite]) ->
            downsample_step peaks (map Fin data) 0 (length data) st i
            = ([Num NonFinite], [Num NonFinite])).
  { intros i st Hi Hst. unfold downsample_step.
    rewrite (bucketIndex_exact i 0 (length data)) by lia.
    replace (bucket_of 0 (length data) i) with 0%nat
      by (unfold bucket_of; rewrite Nat.mul_0_r; by rewrite Nat.Div0.div_0_l).
    destruct (lookup_lt_is_Some_2 data i Hi) as [d Hd].
    assert (Hat : typed_at (map Fin data) i = Num (Fin d)).
    { unfold typed_at. change (map Fin data) with (Fin <$> data).
      by rewrite list_lookup_fmap, Hd. }
    rewrite Hat.
    destruct Hst as [->| ->]; by destruct peaks. }
  intros Hj. induction j as [|j IH].
  - cbn [seq fold_left]. apply Hstep; [lia|by left].
  - rewrite seq_S, fold_left_app, IH by lia. cbn [Nat.add fold_left].
    apply Hstep; [lia|by right].
Qed.

(** In exact arithmetic. Asked for zero values from a buffer that is not
    empty, either mode returns one value, and it is not a number: the loop
    writes to index 0 of an empty array. Asked for [m >= 1] values from an
    empty buffer, it returns [m] entries none of which is a number. *)
Theorem normalizeArray_degenerate
    (dataMap : DataMap) (dataId : nat) (data : list Q) (m : nat)
    (downsamplePeaks : bool) :
  (data <> [] ->
   (normalizeArray dataMap dataId (map Fin data) 0 downsamplePeaks false).1
   = [Num NonFinite]) /\
  ((1 <= m)%nat ->
   let out :=
     (normalizeArray (F := ExactNum) dataMap dataId [] m downsamplePeaks
        false).1 in
   length out = m /\
   forall i, (i < m)%nat ->
     out !! i = Some Undefined \/ out !! i = Some (Num NonFinite)).
Proof.
  split.
  - intros Hdata. unfold normalizeArray, normalizeArray_compute. cbn [fst].
    rewrite length_map. cbn [Nat.leb]. unfold downsample.
    rewrite length_map. cbn [replicate].
    assert (Hlen : (1 <= length data)%nat)
      by (destruct data; [done|simpl; lia]).
    assert (Hseq : seq 0 (length data) = seq 0 (S (length data - 1)))
      by (f_equal; lia).
    rewrite Hseq, downsample_zero_buckets by lia.
    by destruct downsamplePeaks.
  - intros Hm out. subst out.
    unfold normalizeArray, normalizeArray_compute. cbn [fst length].
    destruct (Nat.leb_spec m 0) as [|_]; [lia|].
    split; [apply length_upsample|].
    intros i Hi. rewrite upsample_map, lookup_map_seq by done.
    cbn [length]. unfold interpolate_at, num_of_nat, num_one.
    cbn [num_div num_mul num_sub num_add num_of_Z num_leb Math_floor
         Math_ceil exact_number exact_lift2 exact_lift1 exact_div].
    destruct (Qeq_bool (inject_Z (Z.of_nat m) - inject_Z 1) 0);
      cbn [exact_lift1 exact_lift2 exact_leb].
    + by right.
    + destruct (Qle_bool _ _).
      * left. done.
      * right. unfold typed_get. cbn [num_index exact_number].
        destruct (exact_index _); [|done].
        by rewrite lookup_nil.
Qed.

Lemma normalizeArray_degenerate_witness :
  (normalizeArray ∅ 0%nat (map Fin [1; -2]) 0 true false).1
  = [Num NonFinite] /\
  let out :=
    (normalizeArray (F := ExactNum) ∅ 0%nat [] 2 true false).1 in
  length out = 2%nat /\
  forall i, (i < 2)%nat ->
    out !! i = Some Undefined \/ out !! i = Some (Num NonFinite).
Proof.
  destruct (normalizeArray_degenerate ∅ 0%nat [1; -2] 2 true) as [Hzero Hempty].
  split; [apply Hzero; discriminate|apply Hempty; lia].
Defined.

End Degenerate.

(** ** The bars: the loop in closed form (any number system) *)

Section BarsLoop.
Context {F : Type} `{JsNumber F}.
Variable css_color : string -> bool.



End BarsLoop.

(** ** The bars, in exact arithmetic *)

Section BarsExact.
Local Open Scope Q_scope.
Variable css_color : string -> bool.


Lemma Qmin_comp (a a' b b' : Q) : a == a' -> b == b' -> Qmin a b == Qmin a' b'.
Proof.
  intros Ha Hb.
  destruct (Qmin_cases a b) as [[? ->]|[? ->]],
           (Qmin_cases a' b') as [[? ->]|[? ->]]; lra.
Qed.











End BarsExact.

Section BarsRun.
Local Open Scope Q_scope.
Variable css_color : string -> bool.






End BarsRun.

Section BarsTheorems.
Local Open Scope Q_scope.
Variable css_color : string -> bool.





End BarsTheorems.

Section BarsInstances.
Local Open Scope Q_scope.





(** The same two calls on the numbers the browser computes with, and the
    first frame of a silent buffer. *)
Example drawBars_binary64 :
  drawBars hex_color {| canvas_width := 0; canvas_height := 48 |}%float
    (replicate 128 (-65)%float) "#0099ff" 10%float 0%float 8%float false None
  = (threw_RangeError, []) /\
  drawBars hex_color {| canvas_width := 300; canvas_height := 48 |}%float
    (replicate 5 (-65)%float) "#0099ff" 10%float 0%float 8%float false None
  = (threw_TypeError, []) /\
  fst (drawBars hex_color {| canvas_width := 300; canvas_height := 48 |}%float
         (replicate 128 neg_infinity) "#0099ff" 10%float 0%float 8%float
         false None)
  = returned (replicate 10 (Binary64.fround (2 / 100)%float)).
Proof. vm_compute. repeat split. Qed.

End BarsInstances.

(** ** A canvas with no room for a bar *)

Section BarsNoRoom.
Local Open Scope Q_scope.
Variable css_color : string -> bool.


End BarsNoRoom.

Section BarsNoRoomInstances.
Local Open Scope Q_scope.


End BarsNoRoomInstances.

(** ** Successive frames *)

Section FramesExact.
Local Open Scope Q_scope.
Variable css_color : string -> bool.



End FramesExact.

Section FramesInstances.
Local Open Scope Q_scope.


End FramesInstances.

(** ** The older copy of the hook *)

Section LegacyHook.
Variable initialInstructions : string.
Variable tools : option (list Tool).

Lemma legacy_negotiate_transport (env : ConnectEnv) (p d : nat) :
  preserves transport_frame (Legacy.negotiate initialInstructions tools env p d).
Proof.
  unfold Legacy.negotiate, update_connection, update_channel.
  repeat frame_step transport_frame_refl transport_frame_trans.
Qed.

Lemma legacy_negotiate_outcome (env : ConnectEnv) (p d : nat) (w : World) :
  if legacy_answers_suffice env
  then fst (Legacy.negotiate initialInstructions tools env p d w) = Returned tt
       /\ isConnected
            (snd (Legacy.negotiate initialInstructions tools env p d w)) = true
  else (exists e,
          fst (Legacy.negotiate initialInstructions tools env p d w) = Thrown e)
       /\ isConnected
            (snd (Legacy.negotiate initialInstructions tools env p d w))
          = isConnected w.
Proof.
  unfold legacy_answers_suffice, Legacy.negotiate, bind, throw, ret.
  destruct (offer env) as [sdp|]; simpl; [|split; [by eexists|done]].
  destruct (negotiation_fetch env) as [|status answer]; simpl.
  { destruct (local_description_ok env); simpl; split; (by eexists || done). }
  destruct (local_description_ok env); simpl; [|split; [by eexists|done]].
  destruct (remote_description_ok env); simpl; [|split; [by eexists|done]].
  destruct (channel_opens env); simpl;
    repeat match goal with
           | |- context [match ?x with _ => _ end] => destruct x; simpl
           end; done.
Qed.

Lemma open_transport_flag (w : World) :
  isConnected (snd (open_transport w)) = isConnected w.
Proof. done. Qed.

Lemma attach_microphone_flag (env : ConnectEnv) (p : nat) (w : World) :
  isConnected (snd (attach_microphone env p w)) = isConnected w.
Proof.
  unfold attach_microphone, try_catch.
  destruct (user_media env) as [stream|]; [|done].
  unfold modify. cbn [fst snd]. by rewrite add_tracks_world.
Qed.

(** In the older copy of the hook, a [connect] whose negotiation fails
    leaves the session stuck: the call throws, the connection it opened is
    still held and live, [isConnected] is as it was, and every later
    [connect] returns at the guard without doing anything. *)
Theorem legacy_connect_failure_sticks (env env' : ConnectEnv) (w : World) :
  peerConnectionRef w = None ->
  legacy_answers_suffice env = false ->
  let p := length (peerConnections w) in
  let w' := snd (Legacy.connect initialInstructions tools env w) in
  (exists e, fst (Legacy.connect initialInstructions tools env w) = Thrown e) /\
  peerConnectionRef w' = Some p /\
  is_live w' p /\
  isConnected w' = isConnected w /\
  Legacy.connect initialInstructions tools env' w' = (Returned tt, w').
Proof.
  intros Hidle Hfail. cbv zeta.
  assert (Hrun : Legacy.connect initialInstructions tools env w
                 = Legacy.negotiate initialInstructions tools env
                     (length (peerConnections w)) (length (dataChannels w))
                     (snd (attach_microphone env (length (peerConnections w))
                             (snd (open_transport w))))).
  { unfold Legacy.connect. rewrite Hidle. unfold bind.
    destruct (open_transport_result w) as (w1 & -> & _). cbn [fst snd].
    pose proof (attach_microphone_returns env (length (peerConnections w)) w1)
      as Hret.
    by destruct (attach_microphone env (length (peerConnections w)) w1)
      as [[[]|e] w2]. }
  rewrite Hrun.
  destruct (open_transport_result w) as (w1 & Hw1 & Hflags & Href & _).
  pose proof (open_transport_flag w) as Hflag1. rewrite Hw1 in *.
  cbn [snd] in *.
  pose proof (attach_microphone_transport env (length (peerConnections w)) w1)
    as [Hp2 _ Hc2 _].
  pose proof (attach_microphone_flag env (length (peerConnections w)) w1)
    as Hflag2.
  set (w2 := snd (attach_microphone env (length (peerConnections w)) w1)) in *.
  pose proof (legacy_negotiate_transport env (length (peerConnections w))
                (length (dataChannels w)) w2) as [Hp3 _ Hc3 _].
  pose proof (legacy_negotiate_outcome env (length (peerConnections w))
                (length (dataChannels w)) w2) as Hout.
  rewrite Hfail in Hout. destruct Hout as [Hthrown Hflag3].
  set (w3 := snd (Legacy.negotiate initialInstructions tools env
                    (length (peerConnections w)) (length (dataChannels w)) w2))
    in *.
  assert (Hheld : peerConnectionRef w3 = Some (length (peerConnections w)))
    by congruence.
  split; [done|]. split; [done|]. split; [|split].
  - unfold is_live, closed_flags in *. rewrite Hc3, Hc2, Hflags.
    rewrite <- (length_map pc_closed (peerConnections w)).
    apply lookup_snoc.
  - congruence.
  - unfold Legacy.connect. by rewrite Hheld.
Qed.

End LegacyHook.

Section LegacyHookInstances.

Lemma legacy_connect_failure_sticks_witness :
  let failing :=
    {| session_fetch := fetch_rejected;
       user_media := user_media successful_env;
       offer := None;
       local_description_ok := true;
       negotiation_fetch := negotiation_fetch successful_env;
       remote_description_ok := true;
       channel_opens := true |} in
  let w := initial_world "2025-01-01" in
  let w' := snd (Legacy.connect "instructions" page_tools failing w) in
  (exists e,
     fst (Legacy.connect "instructions" page_tools failing w) = Thrown e) /\
  peerConnectionRef w' = Some 0%nat /\
  is_live w' 0 /\
  isConnected w' = false /\
  Legacy.connect "instructions" page_tools successful_env w'
  = (Returned tt, w').
Proof.
  cbv zeta.
  apply (legacy_connect_failure_sticks "instructions" page_tools
           {| session_fetch := fetch_rejected;
              user_media := user_media successful_env;
              offer := None;
              local_description_ok := true;
              negotiation_fetch := negotiation_fetch successful_env;
              remote_description_ok := true;
              channel_opens := true |}
           successful_env (initial_world "2025-01-01")); reflexivity.
Defined.

End LegacyHookInstances.

(** ** The server's route and the page *)

Section TokenRoute.
Variable initialInstructions : string.
Variable tools : option (list Tool).

(** The route answers 200 or 500 and nothing else, whatever the upstream
    status was. When the upstream answer cannot be used (no response, a
    status outside 200..299, or a body that is not JSON) it logs once and
    answers 500 with a fixed JSON body that reads back as [{ error: ... }];
    a page whose credential fetch gets that answer ends its [connect] idle,
    with both refs null and no connection created. *)
Theorem session_route_failure_idles
    (upstream : FetchResult) (env : ConnectEnv) (w : World) :
  session_fetch env = served (session_route upstream) ->
  let r := session_route upstream in
  let w' := snd (connect_resume initialInstructions tools env w) in
  (route_status r = 200%nat \/ route_status r = 500%nat) /\
  (upstream_unusable upstream = true ->
   route_status r = 500%nat /\
   JSON.parse (route_body r) = Some token_failure /\
   route_logged r = ["Error generating session:"] /\
   isConnected w' = false /\
   peerConnectionRef w' = None /\ dataChannelRef w' = None /\
   length (peerConnections w') = length (peerConnections w)).
Proof.
  intros Hfetch. cbv zeta. split.
  - unfold session_route. destruct upstream as [|status body]; [by right|].
    destruct (response_ok status); [|by right].
    destruct (JSON.parse body); [by left|by right].
  - intros Hbad.
    assert (Hroute : session_route upstream
                     = {| route_status := 500;
                          route_body :=
                            default "undefined" (JSON.stringify token_failure);
                          route_logged := ["Error generating session:"] |}).
    { unfold session_route, upstream_unusable in *.
      destruct upstream as [|status body]; [done|].
      destruct (response_ok status); [|done].
      by destruct (JSON.parse body). }
    rewrite Hroute in *. cbn [route_status route_body route_logged].
    split; [done|]. split; [by vm_compute|]. split; [done|].
    assert (Hcred : credential_suffices env = false).
    { unfold credential_suffices. by rewrite Hfetch. }
    assert (Hans : answers_suffice env = false)
      by (unfold answers_suffice; by rewrite Hcred).
    destruct (connect_resume_outcome initialInstructions tools env w)
      as (_ & Hflag & _ & Hidle).
    destruct (Hidle Hans) as [Hp Hd].
    split; [by rewrite Hflag|]. split; [done|]. split; [done|].
    unfold connect_resume, try_catch.
    pose proof (acquire_credential_returns env w) as Hacq.
    rewrite Hcred in Hacq. destruct Hacq as [e Hacq].
    unfold connect_body, bind. rewrite Hacq. cbn [fst snd modify].
    unfold disconnect.
    destruct (dataChannelRef w) as [d|] eqn:Hdc;
      destruct (peerConnectionRef w) as [p|] eqn:Href;
      simpl; rewrite ?Hdc, ?Href; simpl; rewrite ?Href; simpl;
      by rewrite ?length_alter.
Qed.

End TokenRoute.

Section TokenRouteInstances.

Lemma session_route_failure_idles_witness :
  let upstream := fetch_response 401 "{}" in
  let r := session_route upstream in
  let env :=
    {| session_fetch := served r;
       user_media := user_media successful_env;
       offer := offer successful_env;
       local_description_ok := true;
       negotiation_fetch := negotiation_fetch successful_env;
       remote_description_ok := true;
       channel_opens := true |} in
  let w' :=
    snd (connect_resume "instructions" page_tools env
           (initial_world "2025-01-01")) in
  route_status r = 500%nat /\
  JSON.parse (route_body r) = Some token_failure /\
  route_logged r = ["Error generating session:"] /\
  isConnected w' = false /\
  peerConnectionRef w' = None /\ dataChannelRef w' = None /\
  length (peerConnections w') = 0%nat.
Proof.
  cbv zeta.
  apply (session_route_failure_idles "instructions" page_tools
           (fetch_response 401 "{}")
           {| session_fetch := served (session_route (fetch_response 401 "{}"));
              user_media := user_media successful_env;
              offer := offer successful_env;
              local_description_ok := true;
              negotiation_fetch := negotiation_fetch successful_env;
              remote_description_ok := true;
              channel_opens := true |}
           (initial_world "2025-01-01") eq_refl).
  reflexivity.
Defined.

End TokenRouteInstances.
